(** * DeepSearch AI: the research agent's tool registry, orchestration
      configuration and chat client, embedded and verified.

    The server ([ChatAgent.onChatMessage]) configures one [streamText]
    call: a pruned view of the session history, two tools ([webSearch]
    with an execution body, [getUserTimezone] without one), a step cap
    and an abort signal.  The client ([Chat] in app.tsx) sends user
    messages and answers the client-owned tool.

    Layout: the embedding first (modules [JS], [Server], [Pruner],
    [Orchestrator], [Client]), the theorems afterwards. *)

From Stdlib Require Import ZArith NArith String Ascii List Bool Lia.
From Stdlib Require Import PrimFloat.
From stdpp Require Import base option list gmap.

Set Default Proof Using "Type".
Set Warnings "-register-all".
Local Open Scope string_scope.

(* ===================================================================== *)
(** ** A fragment of JavaScript: values, exceptions, the methods used   *)
(* ===================================================================== *)

Module JS.

(** A JS string is a sequence of UTF-16 code units; [length] and [slice]
    count code units. *)
Definition code_unit := N.
Definition jsstring := list code_unit.

(** A string literal of the source. *)
Definition lit (s : string) : jsstring :=
  map N_of_ascii (list_ascii_of_string s).

(** JS values as far as [response.json()] and property reads produce
    them.  A number is an IEEE binary64.  An object is the ordered list
    of its own properties, each key once. *)
Inductive value : Type :=
| VUndefined
| VNull
| VBool (b : bool)
| VNum (n : float)
| VStr (s : jsstring)
| VArr (elems : list value)
| VObj (props : list (jsstring * value)).

(** The exceptions this code can meet. *)
Inductive exn : Type :=
| TypeError      (* property read on null/undefined, call of a non-function *)
| SyntaxError    (* [response.json()] on a body that is not JSON *)
| NetworkError.  (* [fetch] rejected *)

(** An awaited computation: a value, or a thrown exception (a rejected
    promise). *)
Inductive result (A : Type) : Type :=
| Ok (a : A)
| Throw (e : exn).
Arguments Ok {A} a.
Arguments Throw {A} e.

Definition bind {A B} (m : result A) (k : A -> result B) : result B :=
  match m with
  | Ok a => k a
  | Throw e => Throw e
  end.

Notation "'let!' x ':=' m 'in' k" := (bind m (fun x => k))
  (at level 10, x name, m at level 100, k at level 200,
   format "'[v' 'let!'  x  ':='  m  'in' '/' k ']'").

(** [a.map(f)] on a dense array: [f] runs on the elements in order and
    the first exception aborts the call. *)
Fixpoint map_in_order {A B} (f : A -> result B) (l : list A)
  : result (list B) :=
  match l with
  | [] => Ok []
  | x :: l' =>
      let! y := f x in
      let! ys := map_in_order f l' in
      Ok (y :: ys)
  end.

Definition nullish (v : value) : bool :=
  match v with
  | VUndefined | VNull => true
  | _ => false
  end.

Fixpoint lookup_prop (k : jsstring) (props : list (jsstring * value))
  : option value :=
  match props with
  | [] => None
  | (k', v) :: rest => if decide (k = k') then Some v else lookup_prop k rest
  end.

(** [v.k] for a key [k] that no built-in prototype and no exotic object
    defines (the code reads [results], [title], [url], [content]):
    a TypeError on null and undefined, the own property of an object,
    and undefined on primitives, arrays and objects without the key. *)
Definition get (v : value) (k : jsstring) : result value :=
  match v with
  | VUndefined | VNull => Throw TypeError
  | VObj props => Ok (default VUndefined (lookup_prop k props))
  | VBool _ | VNum _ | VStr _ | VArr _ => Ok VUndefined
  end.

(** [v?.m(...)]: undefined when [v] is null or undefined, the call
    otherwise. *)
Definition optional_call {A} (v : value) (call : value -> result A)
  : result (option A) :=
  if nullish v then Ok None
  else let! a := call v in Ok (Some a).

(** [x ?? d], for an [x] that is undefined ([None]) or not nullish. *)
Definition nullish_coalesce {A} (x : option A) (d : A) : A :=
  match x with
  | Some a => a
  | None => d
  end.

(** [v.map(f)]: only arrays have a callable [map]; a value parsed from
    JSON holds no function, so on anything else the call throws. *)
Definition call_map {B} (f : value -> result B) (v : value)
  : result (list B) :=
  match v with
  | VArr elems => map_in_order f elems
  | _ => Throw TypeError
  end.

(** The index arithmetic shared by [String.prototype.slice] and
    [Array.prototype.slice]: a negative index counts from the end, both
    are clamped to [0, len], and an empty range gives nothing. *)
Definition clamp_index (len i : Z) : Z :=
  if (i <? 0)%Z then Z.max (len + i) 0 else Z.min i len.

Definition slice {A} (start stop : Z) (l : list A) : list A :=
  let len := Z.of_nat (length l) in
  let from := clamp_index len start in
  let to := clamp_index len stop in
  take (Z.to_nat (to - from)) (drop (Z.to_nat from) l).

(** [v.slice(start, stop)]: strings and arrays have it, nothing else
    parsed from JSON does. *)
Definition call_slice (start stop : Z) (v : value) : result value :=
  match v with
  | VStr s => Ok (VStr (slice start stop s))
  | VArr elems => Ok (VArr (slice start stop elems))
  | _ => Throw TypeError
  end.

(** The text [JSON.stringify(v)], kept as the value it serialises. *)
Inductive json_text : Type :=
| JSON_stringify (v : value).

(** [s.trim()]: the WhiteSpace and LineTerminator code points are
    stripped from both ends. *)
Definition is_whitespace (c : code_unit) : bool :=
  existsb (N.eqb c)
    [9; 10; 11; 12; 13; 32; 160; 5760; 8232; 8233; 8239; 8287; 12288; 65279]%N
  || ((8192 <=? c)%N && (c <=? 8202)%N).

Fixpoint trim_start (s : jsstring) : jsstring :=
  match s with
  | [] => []
  | c :: s' => if is_whitespace c then trim_start s' else s
  end.

Definition trim_end (s : jsstring) : jsstring := rev (trim_start (rev s)).

Definition trim (s : jsstring) : jsstring := trim_end (trim_start s).

(** [!s] for a string: only the empty string is falsy. *)
Definition falsy (s : jsstring) : bool :=
  match s with
  | [] => true
  | _ :: _ => false
  end.

End JS.

(* ===================================================================== *)
(** ** Messages: the client's UI messages and the model's messages      *)
(* ===================================================================== *)

Module UI.
Import JS.

(** [UIMessage] as app.tsx reads it: [id], [role], [parts]; a part is
    text, reasoning (with its streaming/done flag) or a tool part with
    [toolCallId], [state], [input], [output] and an optional approval
    id. *)
Inductive Role : Type := system | user | assistant.

Inductive reasoning_state : Type := streaming | done.

Inductive tool_state : Type :=
| input_streaming
| input_available
| approval_requested
| output_available
| output_denied.

Inductive UIPart : Type :=
| UIText (text : jsstring)
| UIReasoning (text : jsstring) (state : option reasoning_state)
| UITool (toolName toolCallId : string) (state : tool_state)
         (input output : value) (approval : option string).

Record UIMessage : Type := {
  id : string;
  role : Role;
  parts : list UIPart
}.

End UI.

Module Conversation.
Import JS.

(** Modelled from the spec: the data model of section 3, for the
    messages handed to the generation call, whose type is declared in
    the imported package [ai] and not in the repository.  A Message has
    a role and an ordered sequence of Parts; a Part is text, reasoning,
    a tool call or a tool result keyed by the call id. *)
Inductive Role : Type := user | assistant | tool.

Inductive approval_state : Type :=
| requested | approved | rejected | completed.

Inductive Part : Type :=
| text (s : jsstring)
| reasoning (s : jsstring) (st : UI.reasoning_state)
| tool_call (name call_id : string) (input : value)
| tool_result (call_id : string) (output : result value)
              (approval : approval_state).

Record Message : Type := {
  role : Role;
  parts : list Part
}.

End Conversation.

(* ===================================================================== *)
(** ** ContextPruner                                                     *)
(* ===================================================================== *)

Module Pruner.
Import JS Conversation.

(** Modelled from the spec: the retention rules of [pruneMessages]
    (package [ai], not in the repository) are named
    before-last-N-messages; the server uses N = 2. *)
Inductive policy : Type :=
| before_last_messages (n : nat).

Definition before_last_2_messages : policy := before_last_messages 2.

Definition is_tool_part (p : Part) : bool :=
  match p with
  | tool_call _ _ _ | tool_result _ _ _ => true
  | text _ | reasoning _ _ => false
  end.

(** Modelled from the spec: an earlier Message loses its tool payloads
    and keeps its other Parts in order. *)
Definition strip_tools (m : Message) : Message :=
  {| role := role m;
     parts := List.filter (fun p => negb (is_tool_part p)) (parts m) |}.

(** Modelled from the spec: [pruneMessages] of package [ai] is not in
    the repository.  Section 4.2: the policy keeps full tool-call and
    tool-result detail only for the N most recent Messages and drops
    the tool payloads of the earlier ones. *)
Definition prune (ms : list Message) (P : policy) : list Message :=
  match P with
  | before_last_messages n =>
      let cut := (length ms - n)%nat in
      (strip_tools <$> take cut ms) ++ drop cut ms
  end.

End Pruner.

(* ===================================================================== *)
(** ** server: the tools of [ChatAgent.onChatMessage]                   *)
(* ===================================================================== *)

Module Server.
Import JS.

(** [this.env]: the search-provider secret, absent when not configured. *)
Record Env : Type := {
  TAVILY_API_KEY : option jsstring
}.

Inductive http_method : Type := GET | POST.

Record Request : Type := {
  req_url : string;
  req_method : http_method;
  req_headers : list (string * jsstring);
  req_body : json_text
}.

(** What the code can see of a [Response]: the status (never read) and
    the outcome of [response.json()]. *)
Record Response : Type := {
  status : Z;
  json : result value
}.

(** The provider, as [fetch] presents it. *)
Definition Fetch := Request -> result Response.

(** [`Bearer ${key}`]: a missing key prints as undefined. *)
Definition bearer (env : Env) : jsstring :=
  (lit "Bearer " ++ default (lit "undefined") (TAVILY_API_KEY env))%list.

Definition search_request (env : Env) (query : jsstring) : Request :=
  {| req_url := "https://api.tavily.com/search";
     req_method := POST;
     req_headers :=
       [ ("Content-Type", lit "application/json");
         ("Authorization", bearer env) ];
     req_body :=
       JSON_stringify
         (VObj [ (lit "query", VStr query);
                 (lit "max_results", VNum 5);
                 (lit "search_depth", VStr (lit "basic")) ]) |}.

Record SearchResult : Type := {
  title : value;
  url : value;
  content : value
}.

Record SearchOutput : Type := {
  query : jsstring;
  results : list SearchResult
}.

(** The callback of [data.results?.map(...)]. *)
Definition to_result (r : value) : result SearchResult :=
  let! t := get r (lit "title") in
  let! u := get r (lit "url") in
  let! c := get r (lit "content") in
  let! c' := optional_call c (call_slice 0 500) in
  Ok {| title := t; url := u; content := nullish_coalesce c' VUndefined |}.

(** [webSearch.execute]. *)
Definition webSearch_execute (env : Env) (fetch : Fetch) (q : jsstring)
  : result SearchOutput :=
  let! response := fetch (search_request env q) in
  let! data := json response in
  let! rs := get data (lit "results") in
  let! mapped := optional_call rs (call_map to_result) in
  Ok {| query := q; results := nullish_coalesce mapped [] |}.

(** *** The tool registry *)

(** The zod schemas of the two tools. *)
Inductive Schema : Type :=
| z_string
| z_object (fields : list (string * Schema)).

(** [tool({description, inputSchema, execute})]: [execute] is optional. *)
Record Tool (I O : Type) : Type := {
  description : string;
  inputSchema : Schema;
  execute : option (I -> result O)
}.
Arguments description {I O} _.
Arguments inputSchema {I O} _.
Arguments execute {I O} _.

(** The validated input of [webSearch], destructured as [{ query }]. *)
Record WebSearchInput : Type := {
  input_query : jsstring
}.

Record ToolSet : Type := {
  webSearch : Tool WebSearchInput SearchOutput;
  getUserTimezone : Tool unit value
}.

Definition tools (env : Env) (fetch : Fetch) : ToolSet :=
  {| webSearch :=
       {| description :=
            "Search the web for information on a topic. Use this multiple times to research different aspects of the question.";
          inputSchema := z_object [("query", z_string)];
          execute :=
            Some (fun input => webSearch_execute env fetch (input_query input)) |};
     getUserTimezone :=
       {| description := "Get the user's timezone from their browser.";
          inputSchema := z_object [];
          execute := None |} |}.

(** *** The session's store and [onChatMessage] *)

(** Arrays are objects on a heap: [this.messages] is a reference, and so
    are the arrays [convertToModelMessages] and [pruneMessages] take and
    return. *)
Abbreviation loc := nat (only parsing).

Inductive cell : Type :=
| UIMessages (ms : list UI.UIMessage)
| ModelMessages (ms : list Conversation.Message).

Abbreviation heap := (gmap nat cell) (only parsing).

Record Agent : Type := {
  this_messages : loc;
  this_env : Env
}.

Inductive StopCondition : Type :=
| stepCountIs (n : nat).

Inductive AbortSignal : Type :=
| abort_signal (id : nat).

Inductive Callback : Type :=
| callback (id : nat).

(** The options of the one [streamText] call. *)
Record StreamTextOptions : Type := {
  model : string;
  system : string;
  messages : loc;
  opt_tools : ToolSet;
  onFinish : Callback;
  stopWhen : StopCondition;
  abortSignal : option AbortSignal
}.

Definition system_prompt : string :=
"You are DeepSearch AI, an expert multi-step research agent. 

When a user asks a research question, you must:
1. DECOMPOSE the question into 2-3 specific sub-topics to research
2. SEARCH each sub-topic using the webSearch tool
3. ANALYZE the results and extract key findings
4. SYNTHESIZE everything into a clear, structured research brief

Always think step by step. Show your reasoning. Use multiple searches to build a complete picture.
Format your final answer with clear sections: Summary, Key Findings, and Conclusion.
Cite your sources.".

Section OnChatMessage.

(** The two imported functions, as heap transformers: each takes the
    reference of an array and returns the reference of its result. *)
Variable convertToModelMessages : loc -> heap -> loc * heap.
Variable pruneMessages : loc -> Pruner.policy -> heap -> loc * heap.
Variable fetch : Fetch.

Definition onChatMessage (this : Agent) (on_finish : Callback)
    (options : option AbortSignal) (h : heap) : StreamTextOptions * heap :=
  let '(converted, h1) := convertToModelMessages (this_messages this) h in
  let '(pruned, h2) :=
    pruneMessages converted Pruner.before_last_2_messages h1 in
  ({| model := "@cf/meta/llama-3.3-70b-instruct-fp8-fast";
      system := system_prompt;
      messages := pruned;
      opt_tools := tools (this_env this) fetch;
      onFinish := on_finish;
      stopWhen := stepCountIs 10;
      abortSignal := options |},
   h2).

End OnChatMessage.

(** *** What the imported functions may do to the heap *)

(** [f] returns a reference that was not allocated before and leaves
    every array that existed as it was. *)
Definition returns_fresh (f : heap -> loc * heap) : Prop :=
  forall h l' h', f h = (l', h') ->
    h !! l' = None /\ forall k, is_Some (h !! k) -> h' !! k = h !! k.

(** [f] may overwrite the array at [l] and allocate, and leaves every
    other array that existed as it was. *)
Definition writes_at_most (l : loc) (f : heap -> loc * heap) : Prop :=
  forall h l' h', f h = (l', h') ->
    forall k, k <> l -> is_Some (h !! k) -> h' !! k = h !! k.

(** *** Instances of the imported functions *)

Definition alloc (c : cell) (h : heap) : loc * heap :=
  let l := fresh (dom h) in (l, <[l := c]> h).

(** Modelled from the spec: [convertToModelMessages] of package [ai] is
    not in the repository.  Section 6: the history is converted to the
    model's wire representation; a text or reasoning part is carried
    over, and a tool part becomes its call, followed by its result once
    the output is available. *)
Definition convert_part (p : UI.UIPart) : list Conversation.Part :=
  match p with
  | UI.UIText s => [Conversation.text s]
  | UI.UIReasoning s st =>
      [Conversation.reasoning s (default UI.done st)]
  | UI.UITool name cid st input output _ =>
      Conversation.tool_call name cid input ::
      match st with
      | UI.output_available =>
          [Conversation.tool_result cid (Ok output) Conversation.completed]
      | UI.output_denied =>
          [Conversation.tool_result cid (Ok VUndefined) Conversation.rejected]
      | _ => []
      end
  end.

Definition convert_role (r : UI.Role) : Conversation.Role :=
  match r with
  | UI.assistant => Conversation.assistant
  | UI.user | UI.system => Conversation.user
  end.

Definition convert_message (m : UI.UIMessage) : Conversation.Message :=
  {| Conversation.role := convert_role (UI.role m);
     Conversation.parts := concat (convert_part <$> UI.parts m) |}.

(** Modelled from the spec: the conversion reads the history and builds
    a new array. *)
Definition convert_fresh (l : loc) (h : heap) : loc * heap :=
  match h !! l with
  | Some (UIMessages ms) => alloc (ModelMessages (convert_message <$> ms)) h
  | _ => alloc (ModelMessages []) h
  end.

(** Modelled from the spec: a pruner that overwrites the array it is
    given with [Pruner.prune] of it. *)
Definition prune_in_place (l : loc) (P : Pruner.policy) (h : heap)
  : loc * heap :=
  match h !! l with
  | Some (ModelMessages ms) => (l, <[l := ModelMessages (Pruner.prune ms P)]> h)
  | _ => (l, h)
  end.

(** Modelled from the spec: a pruner that leaves its argument alone and
    returns [Pruner.prune] of it in a new array. *)
Definition prune_fresh (l : loc) (P : Pruner.policy) (h : heap)
  : loc * heap :=
  match h !! l with
  | Some (ModelMessages ms) => alloc (ModelMessages (Pruner.prune ms P)) h
  | _ => alloc (ModelMessages []) h
  end.

End Server.

(* ===================================================================== *)
(** ** StepOrchestrator                                                  *)
(* ===================================================================== *)

Module Orchestrator.
Import JS Conversation.

(** Modelled from the spec: the generation and tool loop runs inside
    [streamText] of package [ai], which is not in the repository; the
    server only configures it ([stopWhen], [abortSignal]).  Section 4.3:
    the states of one step sequence. *)
Inductive phase : Type :=
| Idle
| Generating
| ToolsPending
| Executing
| Done
| Cancelled
| Failed.

Record ToolCall : Type := {
  call_name : string;
  call_id : string;
  call_input : value
}.

(** Modelled from the spec: the orchestrator's state.  [steps] counts
    the generation requests issued for the current user Message,
    [message] is the Message assembled so far, [pending] the tool calls
    of the current step that are not appended yet, in request order,
    and [inflight] the results that arrived and are not yet appended. *)
Record state : Type := {
  st_phase : phase;
  steps : nat;
  message : list Part;
  pending : list ToolCall;
  inflight : list (string * result value)
}.

(** Modelled from the spec: what the orchestrator reacts to.  Section 6:
    a generation call answers with text deltas, reasoning deltas and
    tool-call requests, then a finish event, or fails in transport;
    tools settle; the cancellation signal may be raised at any point. *)
Inductive event : Type :=
| UserMessage
| TextDelta (s : jsstring)
| ReasoningDelta (s : jsstring) (st : UI.reasoning_state)
| ToolCallRequest (c : ToolCall)
| Finish
| TransportError
| ToolSettled (id : string) (out : result value)
| Abort.

Definition initial : state :=
  {| st_phase := Idle; steps := 0; message := []; pending := []; inflight := [] |}.

Definition terminal (p : phase) : bool :=
  match p with
  | Done | Cancelled | Failed => true
  | Idle | Generating | ToolsPending | Executing => false
  end.

Definition has_result (id : string) (msg : list Part) : bool :=
  existsb (fun p => match p with
                    | tool_result id' _ _ => String.eqb id id'
                    | _ => false
                    end) msg.



(** Every tool-call Part of [msg] is followed at once by a tool-result
    Part of its id, and no tool-result Part stands without its call:
    each call has a result of its own. *)
Fixpoint paired (msg : list Part) : bool :=
  match msg with
  | [] => true
  | tool_call _ id _ :: tool_result id' _ _ :: rest =>
      String.eqb id id' && paired rest
  | tool_call _ _ _ :: _ => false
  | tool_result _ _ _ :: _ => false
  | (text _ | reasoning _ _) :: rest => paired rest
  end.

Fixpoint find_result (id : string) (rs : list (string * result value))
  : option (result value) :=
  match rs with
  | [] => None
  | (id', out) :: rest =>
      if String.eqb id id' then Some out else find_result id rest
  end.

(** Modelled from the spec: a tool call is fully appended with its
    result: the call Part and the result Part enter the Message
    together. *)
Definition call_with_result (c : ToolCall) (out : result value) : list Part :=
  [ tool_call (call_name c) (call_id c) (call_input c);
    tool_result (call_id c) out completed ].

(** Modelled from the spec: results are appended in request order; a
    result that arrived early waits for the calls before it. *)
Fixpoint flush (calls : list ToolCall) (rs : list (string * result value))
    (msg : list Part) : list ToolCall * list Part :=
  match calls with
  | [] => ([], msg)
  | c :: rest =>
      match find_result (call_id c) rs with
      | Some out => flush rest rs (msg ++ call_with_result c out)
      | None => (calls, msg)
      end
  end.

(** Modelled from the spec: once every call of the step has its result
    appended, the next generation step is issued unless the step cap is
    reached, and then the sequence is Done (not an error). *)
Definition settle (cap : nat) (s : state) : state :=
  let '(calls, msg) := flush (pending s) (inflight s) (message s) in
  match calls with
  | [] =>
      if (steps s <? cap)%nat
      then {| st_phase := Generating; steps := S (steps s); message := msg;
              pending := []; inflight := [] |}
      else {| st_phase := Done; steps := steps s; message := msg;
              pending := []; inflight := [] |}
  | _ :: _ =>
      {| st_phase := Executing; steps := steps s; message := msg;
         pending := calls; inflight := inflight s |}
  end.

Definition append (p : Part) (s : state) : state :=
  {| st_phase := st_phase s; steps := steps s; message := message s ++ [p];
     pending := pending s; inflight := inflight s |}.

(** Modelled from the spec: the protocol of section 4.3, one event at a
    time.  Text and reasoning are appended as they stream; a requested
    tool call waits in [pending] and is appended with its result; on
    cancellation the Message assembled so far is the output, and the
    calls still pending and the results in flight are dropped.  An
    event that the current state does not expect is ignored; in
    particular a user Message is accepted only when no step sequence is
    in progress. *)
Definition step (cap : nat) (s : state) (e : event) : state :=
  match e, st_phase s with
  | UserMessage, (Idle | Done | Cancelled | Failed) =>
      {| st_phase := Generating; steps := 1; message := [];
         pending := []; inflight := [] |}
  | TextDelta t, (Generating | ToolsPending) => append (text t) s
  | ReasoningDelta t st, (Generating | ToolsPending) => append (reasoning t st) s
  | ToolCallRequest c, (Generating | ToolsPending) =>
      {| st_phase := ToolsPending; steps := steps s; message := message s;
         pending := pending s ++ [c]; inflight := inflight s |}
  | Finish, Generating =>
      {| st_phase := Done; steps := steps s; message := message s;
         pending := []; inflight := [] |}
  | Finish, ToolsPending => settle cap s
  | TransportError, (Generating | ToolsPending) =>
      {| st_phase := Failed; steps := steps s; message := message s;
         pending := pending s; inflight := inflight s |}
  | ToolSettled id out, ToolsPending =>
      {| st_phase := ToolsPending; steps := steps s; message := message s;
         pending := pending s; inflight := inflight s ++ [(id, out)] |}
  | ToolSettled id out, Executing =>
      settle cap
        {| st_phase := Executing; steps := steps s; message := message s;
           pending := pending s; inflight := inflight s ++ [(id, out)] |}
  | Abort, (Idle | Generating | ToolsPending | Executing) =>
      {| st_phase := Cancelled; steps := steps s; message := message s;
         pending := []; inflight := [] |}
  | _, _ => s
  end.

Definition run (cap : nat) (s : state) (trace : list event) : state :=
  fold_left (step cap) trace s.

(** What one generation step streams, in order. *)
Inductive fragment : Type :=
| FText (t : jsstring)
| FReasoning (t : jsstring) (st : UI.reasoning_state)
| FCall (c : ToolCall).

Definition event_of (f : fragment) : event :=
  match f with
  | FText t => TextDelta t
  | FReasoning t st => ReasoningDelta t st
  | FCall c => ToolCallRequest c
  end.

(** The text and reasoning Parts of the fragments, in order. *)
Fixpoint streamed (fs : list fragment) : list Part :=
  match fs with
  | [] => []
  | FText t :: rest => text t :: streamed rest
  | FReasoning t st :: rest => reasoning t st :: streamed rest
  | FCall _ :: rest => streamed rest
  end.

(** The tool calls of the fragments, in order. *)
Fixpoint calls_of (fs : list fragment) : list ToolCall :=
  match fs with
  | [] => []
  | FCall c :: rest => c :: calls_of rest
  | _ :: rest => calls_of rest
  end.

(** One generation step as the orchestrator sees it when the tools
    answer in request order: the fragments, the finish event, then the
    result [exec c] of every call [c]. *)
Definition step_trace (exec : ToolCall -> result value) (fs : list fragment)
  : list event :=
  map event_of fs ++ [Finish]
  ++ map (fun c => ToolSettled (call_id c) (exec c)) (calls_of fs).

(** What that step adds to the Message: what it streamed, then each
    call with its result. *)
Definition step_parts (exec : ToolCall -> result value) (fs : list fragment)
  : list Part :=
  streamed fs ++ concat (map (fun c => call_with_result c (exec c)) (calls_of fs)).

(** What holds of every state the orchestrator reaches under the cap
    [cap]. *)
Definition inv (cap : nat) (s : state) : Prop :=
  (steps s <= Nat.max 1 cap)%nat /\
  paired (message s) = true /\
  match st_phase s with
  | Generating => pending s = [] /\ inflight s = []
  | Idle | Done | Cancelled => pending s = []
  | ToolsPending => pending s <> []
  | Executing =>
      match pending s with
      | [] => False
      | c :: _ => find_result (call_id c) (inflight s) = None
      end
  | Failed => True
  end.

(** The event that can complete the current step: the finish event of
    the generation, or a tool settling while the step waits for its
    results. *)
Definition completes (s : state) (e : event) : bool :=
  match st_phase s, e with
  | Generating, Finish
  | ToolsPending, Finish
  | Executing, ToolSettled _ _ => true
  | _, _ => false
  end.

(** The cap that a stop condition of the server stands for. *)
Definition step_cap (c : Server.StopCondition) : nat :=
  match c with
  | Server.stepCountIs n => n
  end.

End Orchestrator.

(* ===================================================================== *)
(** ** client: the [Chat] component of app.tsx                           *)
(* ===================================================================== *)

Module Client.
Import JS UI.

(** [status] of [useAgentChat]. *)
Inductive Status : Type := submitted | streaming | ready | error.

Record PromptBubble : Type := {
  bubble_id : Z;
  bubble_text : jsstring
}.

(** The state the handlers of [Chat] read. *)
Record Chat : Type := {
  connected : bool;
  input : jsstring;
  promptSuggestions : list jsstring;
  promptBubble : option PromptBubble;
  messages : list UIMessage;
  status : Status
}.

Record OutgoingMessage : Type := {
  out_role : Role;
  out_parts : list UIPart
}.

Record TimezoneOutput : Type := {
  timezone : jsstring;
  localTime : jsstring
}.

(** The calls the component makes on what [useAgentChat] returned, and
    on the tool-call event. *)
Inductive Effect : Type :=
| sendMessage (m : OutgoingMessage)
| stop
| clearHistory
| addToolOutput (toolCallId : string) (output : TimezoneOutput).

Definition isStreaming (c : Chat) : bool :=
  match status c with
  | streaming | submitted => true
  | ready | error => false
  end.

Definition user_text (t : jsstring) : OutgoingMessage :=
  {| out_role := user; out_parts := [UIText t] |}.

Definition setInput (v : jsstring) (c : Chat) : Chat :=
  {| connected := connected c; input := v;
     promptSuggestions := promptSuggestions c;
     promptBubble := promptBubble c; messages := messages c;
     status := status c |}.

(** [send]. *)
Definition send (c : Chat) : Chat * list Effect :=
  let text := trim (input c) in
  if falsy text || isStreaming c then (c, [])
  else (setInput [] c, [sendMessage (user_text text)]).

(** What the user can do with the rendered controls. *)
Inductive Action : Type :=
| SubmitForm
| KeyDownInput (key : string) (shiftKey : bool)
| ClickSend
| ClickSuggestion (i : nat)
| ClickPromptBubble
| ClickStop
| ClickClear.

(** The handler that runs for an action, when the control is rendered
    and not disabled. *)
Definition act (c : Chat) (a : Action) : Chat * list Effect :=
  match a with
  | SubmitForm => send c
  | KeyDownInput key shiftKey =>
      (* InputArea: disabled={!connected || isStreaming} *)
      if negb (connected c) || isStreaming c then (c, [])
      else if String.eqb key "Enter" && negb shiftKey then send c
      else (c, [])
  | ClickSend =>
      (* rendered when not streaming; disabled={!input.trim() || !connected} *)
      if isStreaming c then (c, [])
      else if falsy (trim (input c)) || negb (connected c) then (c, [])
      else send c
  | ClickSuggestion i =>
      (* rendered when messages.length === 0; disabled={isStreaming} *)
      match messages c with
      | [] =>
          if isStreaming c then (c, [])
          else match slice 0 4 (promptSuggestions c) !! i with
               | Some prompt => (c, [sendMessage (user_text prompt)])
               | None => (c, [])
               end
      | _ :: _ => (c, [])
      end
  | ClickPromptBubble =>
      (* rendered when promptBubble is set; never disabled *)
      match promptBubble c with
      | Some b => (c, [sendMessage (user_text (bubble_text b))])
      | None => (c, [])
      end
  | ClickStop =>
      (* rendered when streaming *)
      if isStreaming c then (c, [stop]) else (c, [])
  | ClickClear => (c, [clearHistory])
  end.

(** *** The client-owned tool *)

Record ToolCall : Type := {
  toolName : string;
  toolCallId : string
}.

(** The event of [onToolCall]; [addToolOutput] may be missing from it. *)
Record ToolCallEvent : Type := {
  toolCall : ToolCall;
  has_addToolOutput : bool
}.

(** What the browser answers: [Intl.DateTimeFormat().resolvedOptions().timeZone]
    and [new Date().toLocaleTimeString()]. *)
Record Browser : Type := {
  resolved_timeZone : jsstring;
  toLocaleTimeString : jsstring
}.

(** [onToolCall]. *)
Definition onToolCall (b : Browser) (event : ToolCallEvent) : list Effect :=
  if has_addToolOutput event
     && String.eqb (toolName (toolCall event)) "getUserTimezone"
  then [addToolOutput (toolCallId (toolCall event))
          {| timezone := resolved_timeZone b;
             localTime := toLocaleTimeString b |}]
  else [].

End Client.

(* ===================================================================== *)
(** ** More of JavaScript: truthiness, strict equality, JSON, try/catch *)
(* ===================================================================== *)

Module Coercion.
Import JS.

(** [if (v)]: undefined, null, false, zero, NaN and the empty string
    are falsy. *)
Definition truthy (v : value) : bool :=
  match v with
  | VUndefined | VNull => false
  | VBool b => b
  | VNum n => negb (is_zero n || is_nan n)
  | VStr s => negb (falsy s)
  | VArr _ | VObj _ => true
  end.

(** [v === s] for a string [s]. *)
Definition is_string (s : jsstring) (v : value) : bool :=
  match v with
  | VStr s' => bool_decide (s' = s)
  | _ => false
  end.

(** [v === false]. *)
Definition is_false (v : value) : bool :=
  match v with
  | VBool false => true
  | _ => false
  end.

(** [v?.k], for a key as in [get]. *)
Definition optional_get (v : value) (k : jsstring) : value :=
  match get v k with
  | Ok x => x
  | Throw _ => VUndefined
  end.

(** [try { body } catch { handler }]. *)
Definition try_catch {A} (body : result A) (handler : exn -> result A)
  : result A :=
  match body with
  | Ok a => Ok a
  | Throw e => handler e
  end.

End Coercion.

Module JSON.
Import JS.

(** What [JSON.parse(JSON.stringify(v))] makes of a value inside an
    array or an object: a property whose value is undefined is left
    out, an undefined array element, NaN and the infinities become null,
    and minus zero becomes zero. *)
Fixpoint revive (v : value) : value :=
  match v with
  | VUndefined => VNull
  | VNull => VNull
  | VBool b => VBool b
  | VNum n =>
      if is_nan n || is_infinity n then VNull
      else if is_zero n then VNum 0
      else VNum n
  | VStr s => VStr s
  | VArr elems => VArr (map revive elems)
  | VObj props =>
      VObj ((fix go (ps : list (jsstring * value)) : list (jsstring * value) :=
               match ps with
               | [] => []
               | (k, x) :: rest =>
                   match x with
                   | VUndefined => go rest
                   | _ => (k, revive x) :: go rest
                   end
               end) props)
  end.

(** A text received: the JSON text of some value, or no JSON at all. *)
Inductive text : Type :=
| json_of (t : json_text)
| not_json (s : jsstring).

(** [JSON.parse].  [JSON.stringify(undefined)] is undefined, which is no
    JSON text. *)
Definition JSON_parse (t : text) : result value :=
  match t with
  | json_of (JSON_stringify VUndefined) => Throw SyntaxError
  | json_of (JSON_stringify v) => Ok (revive v)
  | not_json _ => Throw SyntaxError
  end.

End JSON.

(* ===================================================================== *)
(** ** server: [executeTask]                                             *)
(* ===================================================================== *)

Module Scheduled.
Import JS.

Inductive ServerEffect : Type :=
| console_log (line : jsstring)
| broadcast (message : json_text).

(** [executeTask(description, _task)]; [now] is
    [new Date().toISOString()]. *)
Definition executeTask (now : jsstring) (description : jsstring)
  : list ServerEffect :=
  [ console_log (lit "Executing scheduled task: " ++ description)%list;
    broadcast
      (JSON_stringify
         (VObj [ (lit "type", VStr (lit "scheduled-task"));
                 (lit "description", VStr description);
                 (lit "timestamp", VStr now) ])) ].

End Scheduled.

(* ===================================================================== *)
(** ** client: notifications, theme, tool parts, suggestions            *)
(* ===================================================================== *)

Module Notifications.
Import JS Coercion.

(** The argument of [toasts.add]. *)
Record Toast : Type := {
  toast_title : string;
  toast_description : value;
  toast_timeout : Z
}.

(** [onMessage] of [useAgent]: the toasts it adds for [message.data]. *)
Definition onMessage (data : JSON.text) : result (list Toast) :=
  try_catch
    (let! parsed := JSON.JSON_parse data in
     let! type := get parsed (lit "type") in
     if is_string (lit "scheduled-task") type then
       let! description := get parsed (lit "description") in
       Ok [ {| toast_title := "Scheduled task completed";
               toast_description := description;
               toast_timeout := 0 |} ]
     else Ok [])
    (fun _ => Ok []).

End Notifications.

Module Theme.
Import JS.

(** What [ThemeToggle] reads and writes outside its own state: the
    [data-mode] attribute of the document element, its
    [style.colorScheme], and the [theme] item of [localStorage]. *)
Record Document : Type := {
  data_mode : option jsstring;
  colorScheme : jsstring;
  stored_theme : option jsstring
}.

(** The initial state: [getAttribute("data-mode") === "dark"]. *)
Definition initial_dark (d : Document) : bool :=
  match data_mode d with
  | Some m => bool_decide (m = lit "dark")
  | None => false
  end.

Definition mode_of (dark : bool) : jsstring :=
  if dark then lit "dark" else lit "light".

(** [toggle]. *)
Definition toggle (dark : bool) (d : Document) : bool * Document :=
  let next := negb dark in
  let mode := mode_of next in
  (next,
   {| data_mode := Some mode; colorScheme := mode; stored_theme := Some mode |}).

(** [n] clicks on the button. *)
Fixpoint toggles (n : nat) (dark : bool) (d : Document) : bool * Document :=
  match n with
  | O => (dark, d)
  | S n' => let '(dark', d') := toggle dark d in toggles n' dark' d'
  end.

End Theme.

Module ToolView.
Import JS Coercion.

(** A part as [ToolPartView] reads it.  [is_tool] and [tool_name] are
    what the imported [isToolUIPart] and [getToolName] answer;
    [approval] is absent when the part has no [approval] key. *)
Record Part : Type := {
  is_tool : bool;
  tool_name : string;
  state : string;
  approval : option value;
  input : value;
  output : value
}.

(** What the component returns. *)
Inductive View : Type :=
| Nothing
| DoneView (name : string) (output : value)
| ApprovalView (name : string) (input : value) (approvalId : value)
| RejectedView (name : string)
| RunningView (name : string).

(** [part.approval], undefined without the key. *)
Definition approval_value (part : Part) : value :=
  match approval part with
  | Some a => a
  | None => VUndefined
  end.

(** ["approval" in part]. *)
Definition has_approval (part : Part) : bool :=
  match approval part with
  | Some _ => true
  | None => false
  end.

(** [ToolPartView]. *)
Definition ToolPartView (part : Part) : View :=
  if negb (is_tool part) then Nothing
  else
    let toolName := tool_name part in
    if String.eqb (state part) "output-available"
    then DoneView toolName (output part)
    else if has_approval part && String.eqb (state part) "approval-requested"
    then ApprovalView toolName (input part)
           (optional_get (approval_value part) (lit "id"))
    else if String.eqb (state part) "output-denied"
            || (has_approval part
                && is_false (optional_get (approval_value part) (lit "approved")))
    then RejectedView toolName
    else if String.eqb (state part) "input-available"
            || String.eqb (state part) "input-streaming"
    then RunningView toolName
    else Nothing.

(** The argument of [addToolApprovalResponse]. *)
Record ApprovalResponse : Type := {
  response_id : value;
  response_approved : bool
}.

Inductive Button : Type := Approve | Reject.

(** The [onClick] of a button of the view; only the approval view has
    buttons. *)
Definition click (v : View) (b : Button) : list ApprovalResponse :=
  match v with
  | ApprovalView _ _ approvalId =>
      if truthy approvalId
      then [ {| response_id := approvalId;
                response_approved :=
                  match b with Approve => true | Reject => false end |} ]
      else []
  | _ => []
  end.

End ToolView.

Module Suggestions.
Import JS Client.

Definition defaultPrompts : list jsstring :=
  [ lit "What are the latest AI trends for 2026?";
    lit "Research the future of electric vehicles.";
    lit "Compare CRMs for a 5-person startup.";
    lit "Summarize the key risks in the EU AI Act.";
    lit "Find the most cited papers on transformer optimization.";
    lit "What are the trade-offs between RAG and fine-tuning?" ].

(** The first render of [Chat], before [useAgentChat] has anything. *)
Definition initial_chat : Chat :=
  {| connected := false;
     input := [];
     promptSuggestions := defaultPrompts;
     promptBubble := None;
     messages := [];
     status := ready |}.

(** The answer of [/api/suggestions] as the code types it:
    [{ suggestions?: string[] }]; answers of another type are not
    modelled. *)
Record SuggestionsBody : Type := {
  suggestions : option (list jsstring)
}.

Record SuggestionsResponse : Type := {
  response_ok : bool;
  response_json : result SuggestionsBody
}.

Definition setPromptSuggestions (v : list jsstring) (c : Chat) : Chat :=
  {| connected := connected c; input := input c;
     promptSuggestions := v;
     promptBubble := promptBubble c; messages := messages c;
     status := status c |}.

Definition setPromptBubble (v : option PromptBubble) (c : Chat) : Chat :=
  {| connected := connected c; input := input c;
     promptSuggestions := promptSuggestions c;
     promptBubble := v; messages := messages c;
     status := status c |}.

Definition setConnected (v : bool) (c : Chat) : Chat :=
  {| connected := v; input := input c;
     promptSuggestions := promptSuggestions c;
     promptBubble := promptBubble c; messages := messages c;
     status := status c |}.

(** [fetchSuggestions], given what [fetch("/api/suggestions")] settled
    to: every exception is caught and keeps the prompts. *)
Definition fetchSuggestions (answer : result SuggestionsResponse) (c : Chat)
  : Chat :=
  match answer with
  | Throw _ => c
  | Ok response =>
      if negb (response_ok response) then c
      else match response_json response with
           | Throw _ => c
           | Ok data =>
               match suggestions data with
               | Some (x :: rest) => setPromptSuggestions (x :: rest) c
               | Some [] | None => c
               end
           end
  end.

(** [showBubble]: [now] is [Date.now()] and [draw] is
    [Math.floor(Math.random() * options.length)].  No bubble is set
    when [draw] is not an index of [options], which the range of
    [Math.random] excludes. *)
Definition showBubble (now : Z) (draw : nat) (c : Chat) : option Chat :=
  let options :=
    match promptSuggestions c with
    | _ :: _ => promptSuggestions c
    | [] => defaultPrompts
    end in
  match options !! draw with
  | Some text =>
      Some (setPromptBubble (Some {| bubble_id := now; bubble_text := text |}) c)
  | None => None
  end.

(** What happens to the component besides the user's actions. *)
Inductive Happening : Type :=
| UserDoes (a : Action)
| SocketOpens
| SocketCloses
| SuggestionsSettle (answer : result SuggestionsResponse)
| BubbleShows (now : Z) (draw : nat)
| BubbleTimesOut
| ChatChanges (ms : list UI.UIMessage) (st : Status).

Definition setChat (ms : list UI.UIMessage) (st : Status) (c : Chat) : Chat :=
  {| connected := connected c; input := input c;
     promptSuggestions := promptSuggestions c;
     promptBubble := promptBubble c; messages := ms; status := st |}.

(** One happening: the next state and the calls made. *)
Definition react (c : Chat) (h : Happening) : Chat * list Effect :=
  match h with
  | UserDoes a => act c a
  | SocketOpens => (setConnected true c, [])
  | SocketCloses => (setConnected false c, [])
  | SuggestionsSettle answer => (fetchSuggestions answer c, [])
  | BubbleShows now draw =>
      (match showBubble now draw c with Some c' => c' | None => c end, [])
  | BubbleTimesOut => (setPromptBubble None c, [])
  | ChatChanges ms st => (setChat ms st c, [])
  end.

Fixpoint reacts (c : Chat) (hs : list Happening) : Chat * list Effect :=
  match hs with
  | [] => (c, [])
  | h :: rest =>
      let '(c1, out1) := react c h in
      let '(c2, out2) := reacts c1 rest in
      (c2, (out1 ++ out2)%list)
  end.

(** The list [l] came as the [suggestions] of a successful answer among
    [hs]. *)
Definition received (hs : list Happening) (l : list jsstring) : Prop :=
  exists response body,
    In (SuggestionsSettle (Ok response)) hs /\
    response_ok response = true /\
    response_json response = Ok body /\
    suggestions body = Some l.

End Suggestions.

(* ===================================================================== *)
(** ** Inputs used by the examples                                       *)
(* ===================================================================== *)

Module Samples.
Import JS Server.

Definition demo_env : Env := {| TAVILY_API_KEY := Some (lit "tvly-key") |}.

(** A provider that answers every request with the given status and
    parsed body. *)
Definition respond (st : Z) (body : result value) : Fetch :=
  fun _ => Ok {| status := st; json := body |}.

(** A provider whose [fetch] rejects. *)
Definition unreachable : Fetch := fun _ => Throw NetworkError.

(** A result item with a body text of [n] code units. *)
Definition hit (n : nat) : value :=
  VObj [ (lit "title", VStr (lit "T"));
         (lit "url", VStr (lit "https://example.org"));
         (lit "content", VStr (repeat 97%N n)) ].

(** An item without [content]. *)
Definition bare_hit : value :=
  VObj [ (lit "title", VStr (lit "T"));
         (lit "url", VStr (lit "https://example.org")) ].

Definition hits (items : list value) : value :=
  VObj [ (lit "results", VArr items) ].

(** The JSON body of an error answer: no [results]. *)
Definition error_body : value :=
  VObj [ (lit "detail", VObj [ (lit "error", VStr (lit "Unauthorized")) ]) ].

(** The items of a provider answer: the array under [results], none
    when there is no such array. *)
Definition provider_items (data : value) : list value :=
  match get data (lit "results") with
  | Ok (VArr items) => items
  | _ => []
  end.

(** A provider answer of the documented shape
    [{results: [{title, url, content}, ...]}], all three fields strings. *)
Definition shaped_item (tuc : jsstring * jsstring * jsstring) : value :=
  let '(t, u, c) := tuc in
  VObj [ (lit "title", VStr t); (lit "url", VStr u); (lit "content", VStr c) ].

Definition shaped_result (tuc : jsstring * jsstring * jsstring)
  : SearchResult :=
  let '(t, u, c) := tuc in
  {| title := VStr t; url := VStr u; content := VStr (take 500 c) |}.

(** A stored history with a settled search in its first answer. *)
Definition demo_history : list UI.UIMessage :=
  [ {| UI.id := "m1"; UI.role := UI.user;
       UI.parts := [UI.UIText (lit "Compare CRMs")] |};
    {| UI.id := "m2"; UI.role := UI.assistant;
       UI.parts :=
         [ UI.UITool "webSearch" "c1" UI.output_available
             (VObj [(lit "query", VStr (lit "crm"))]) (hits [hit 3]) None;
           UI.UIText (lit "Summary") ] |};
    {| UI.id := "m3"; UI.role := UI.user;
       UI.parts := [UI.UIText (lit "And pricing?")] |};
    {| UI.id := "m4"; UI.role := UI.assistant;
       UI.parts := [UI.UIText (lit "Pricing")] |} ].

Definition demo_heap : gmap nat cell := {[ 0%nat := UIMessages demo_history ]}.

Definition demo_agent : Agent :=
  {| this_messages := 0; this_env := demo_env |}.

(** One tool round of a model that never stops asking: some text, a
    search request, the finish event, and the tool's result. *)
Definition tool_round (i : nat) : list Orchestrator.event :=
  let id := String (ascii_of_nat (97 + i)) EmptyString in
  [ Orchestrator.TextDelta (lit "searching");
    Orchestrator.ToolCallRequest
      {| Orchestrator.call_name := "webSearch"; Orchestrator.call_id := id;
         Orchestrator.call_input := VObj [(lit "query", VStr (lit "crm"))] |};
    Orchestrator.Finish;
    Orchestrator.ToolSettled id (Ok (hits [])) ].

Definition tool_rounds (n : nat) : list Orchestrator.event :=
  Orchestrator.UserMessage :: concat (map tool_round (seq 0 n)).

(** What the model streams in its tenth step: some text and one more
    search. *)
Definition tenth_step : list Orchestrator.fragment :=
  [ Orchestrator.FText (lit "searching");
    Orchestrator.FCall
      {| Orchestrator.call_name := "webSearch"; Orchestrator.call_id := "j";
         Orchestrator.call_input := VObj [(lit "query", VStr (lit "crm"))] |} ].

(** A search tool that finds nothing. *)
Definition search_answer (c : Orchestrator.ToolCall) : result value :=
  Ok (hits []).


(** The chat while an answer is streaming, with a prompt bubble shown. *)
Definition streaming_chat : Client.Chat :=
  {| Client.connected := true;
     Client.input := [];
     Client.promptSuggestions := [lit "Research the future of electric vehicles."];
     Client.promptBubble :=
       Some {| Client.bubble_id := 1;
               Client.bubble_text := lit "Compare CRMs for a 5-person startup." |};
     Client.messages := demo_history;
     Client.status := Client.streaming |}.

(** The tool-call event for the client-owned tool. *)
Definition timezone_event : Client.ToolCallEvent :=
  {| Client.toolCall :=
       {| Client.toolName := "getUserTimezone"; Client.toolCallId := "call-7" |};
     Client.has_addToolOutput := true |}.

Definition demo_browser : Client.Browser :=
  {| Client.resolved_timeZone := lit "Europe/Paris";
     Client.toLocaleTimeString := lit "10:15:00 AM" |}.

End Samples.

(* ===================================================================== *)
(** ** Shapes of provider answers, and more inputs                       *)
(* ===================================================================== *)

Module Shapes.
Import JS Coercion.

(** An item the callback of [webSearch] maps without an exception: not
    null, with a [content] that is absent, null, a string or an array. *)
Definition item_ok (r : value) : bool :=
  negb (nullish r) &&
  match optional_get r (lit "content") with
  | VUndefined | VNull | VStr _ | VArr _ => true
  | VBool _ | VNum _ | VObj _ => false
  end.

(** A parsed answer on which [webSearch.execute] returns: not null, with
    [results] absent, null, or an array of items as above. *)
Definition answer_ok (data : value) : bool :=
  negb (nullish data) &&
  match optional_get data (lit "results") with
  | VUndefined | VNull => true
  | VArr items => forallb item_ok items
  | VBool _ | VNum _ | VStr _ | VObj _ => false
  end.

(** A character that [trim] keeps at either end. *)
Definition visible (c : code_unit) : bool := negb (is_whitespace c).

End Shapes.

Module MoreSamples.
Import JS.

(** A desktop chat, connected and idle, with a padded question typed. *)
Definition idle_chat : Client.Chat :=
  {| Client.connected := true;
     Client.input := lit "  hello world ";
     Client.promptSuggestions := Suggestions.defaultPrompts;
     Client.promptBubble := None;
     Client.messages := [];
     Client.status := Client.ready |}.

(** A tool part waiting for the user's approval. *)
Definition pending_approval : ToolView.Part :=
  {| ToolView.is_tool := true;
     ToolView.tool_name := "webSearch";
     ToolView.state := "approval-requested";
     ToolView.approval := Some (VObj [(lit "id", VStr (lit "appr-1"))]);
     ToolView.input := VObj [(lit "query", VStr (lit "crm"))];
     ToolView.output := VUndefined |}.

(** A document without a theme yet. *)
Definition plain_document : Theme.Document :=
  {| Theme.data_mode := None;
     Theme.colorScheme := [];
     Theme.stored_theme := None |}.

End MoreSamples.

(* ===================================================================== *)
(** ** Theorems: webSearch                                               *)
(* ===================================================================== *)

Import JS Server Samples.
Import MoreSamples.

Section SliceFacts.
Context {A : Type}.

Lemma slice_from_0 (n : nat) (l : list A) :
  slice 0 (Z.of_nat n) l = take n l.
Proof.
  unfold slice, clamp_index. cbv zeta.
  replace (0 <? 0)%Z with false by reflexivity.
  assert ((Z.of_nat n <? 0)%Z = false) as -> by (apply Z.ltb_ge; lia).
  rewrite (Z.min_l 0) by lia.
  change (Z.to_nat 0) with 0%nat. rewrite drop_0, Z.sub_0_r.
  destruct (decide (n ≤ length l)) as [Hle|Hgt].
  - rewrite Z.min_l by lia. by rewrite Nat2Z.id.
  - rewrite Z.min_r by lia. rewrite Nat2Z.id.
    rewrite !take_ge by lia. done.
Qed.

Lemma slice_0_500 (l : list A) : slice 0 500 l = take 500 l.
Proof. apply (slice_from_0 500). Qed.

Lemma slice_0_500_length (l : list A) : length (slice 0 500 l) ≤ 500.
Proof. rewrite slice_0_500, length_take. lia. Qed.

End SliceFacts.

Section MapInOrder.
Context {A B : Type} (f : A → result B).

Lemma map_in_order_length l ys :
  map_in_order f l = Ok ys → length ys = length l.
Proof.
  revert ys. induction l as [|x l IH]; intros ys H; simpl in H.
  - by inversion H.
  - destruct (f x) as [y|e]; simpl in H; [|discriminate].
    destruct (map_in_order f l) as [ys'|e]; simpl in H; [|discriminate].
    inversion H; subst. simpl. f_equal. by apply IH.
Qed.

Lemma map_in_order_lookup l ys i y :
  map_in_order f l = Ok ys → ys !! i = Some y →
  ∃ x, l !! i = Some x ∧ f x = Ok y.
Proof.
  revert ys i. induction l as [|x l IH]; intros ys i H Hi; simpl in H.
  - inversion H; subst. by rewrite lookup_nil in Hi.
  - destruct (f x) as [y0|e] eqn:Hx; simpl in H; [|discriminate].
    destruct (map_in_order f l) as [ys'|e]; simpl in H; [|discriminate].
    inversion H; subst. destruct i as [|i]; simpl in *.
    + inversion Hi; subst. eauto.
    + eapply IH; eauto.
Qed.

Lemma map_in_order_lookup_fwd l ys i x :
  map_in_order f l = Ok ys → l !! i = Some x →
  ∃ y, ys !! i = Some y ∧ f x = Ok y.
Proof.
  revert ys i. induction l as [|x0 l IH]; intros ys i H Hi; simpl in H.
  - by rewrite lookup_nil in Hi.
  - destruct (f x0) as [y0|e] eqn:Hx; simpl in H; [|discriminate].
    destruct (map_in_order f l) as [ys'|e]; simpl in H; [|discriminate].
    inversion H; subst. destruct i as [|i]; simpl in *.
    + inversion Hi; subst. eauto.
    + eapply IH; eauto.
Qed.

Lemma map_in_order_all_ok (g : A → B) l :
  (∀ x, x ∈ l → f x = Ok (g x)) → map_in_order f l = Ok (g <$> l).
Proof.
  induction l as [|x l IH]; intros H; simpl; [done|].
  rewrite H by left. simpl. rewrite IH; [done|].
  intros y Hy. apply H. by right.
Qed.

End MapInOrder.

Section WebSearch.
Variables (env : Env) (fetch : Fetch) (q : jsstring).

Lemma to_result_inv r item :
  to_result r = Ok item →
  get r (lit "title") = Ok (title item) ∧
  get r (lit "url") = Ok (url item) ∧
  ∃ c, get r (lit "content") = Ok c ∧
       ((nullish c = true ∧ content item = VUndefined) ∨
        (∃ s, c = VStr s ∧ content item = VStr (take 500 s)) ∨
        (∃ l, c = VArr l ∧ content item = VArr (take 500 l))).
Proof.
  unfold to_result. intros H.
  destruct (get r (lit "title")) as [t|e]; simpl in H; [|discriminate].
  destruct (get r (lit "url")) as [u|e]; simpl in H; [|discriminate].
  destruct (get r (lit "content")) as [c|e]; simpl in H; [|discriminate].
  split; [|split]; [| |exists c; split; [done|]];
    destruct c; simpl in H; inversion H; subst; simpl; try done.
  - left. done.
  - left. done.
  - right. left. eexists. split; [done|]. by rewrite slice_0_500.
  - right. right. eexists. split; [done|]. by rewrite slice_0_500.
Qed.

Lemma to_result_without_content r :
  nullish r = false →
  get r (lit "content") = Ok VUndefined →
  ∃ t u, get r (lit "title") = Ok t ∧ get r (lit "url") = Ok u ∧
         to_result r = Ok {| title := t; url := u; content := VUndefined |}.
Proof.
  intros Hr Hc. unfold to_result. rewrite Hc.
  destruct r; simpl in *; try discriminate; eauto.
Qed.

Lemma execute_inv out :
  webSearch_execute env fetch q = Ok out →
  ∃ resp data rs,
    fetch (search_request env q) = Ok resp ∧ json resp = Ok data ∧
    get data (lit "results") = Ok rs ∧ query out = q ∧
    ((nullish rs = true ∧ results out = []) ∨
     (∃ items, rs = VArr items ∧
               map_in_order to_result items = Ok (results out))).
Proof.
  unfold webSearch_execute. intros H.
  destruct (fetch _) as [resp|e]; simpl in H; [|discriminate].
  destruct (json resp) as [data|e] eqn:Hj; simpl in H; [|discriminate].
  destruct (get data _) as [rs|e] eqn:Hg; simpl in H; [|discriminate].
  exists resp, data, rs. split; [done|]. split; [done|]. split; [done|].
  unfold optional_call in H.
  destruct rs; simpl in H; try discriminate;
    try (inversion H; subst; simpl; split; [done|left; done]).
  destruct (map_in_order to_result elems) as [ys|e] eqn:Hm; simpl in H;
    [|discriminate].
  inversion H; subst; simpl. split; [done|]. right. eauto.
Qed.

Lemma execute_without_results resp data rs :
  fetch (search_request env q) = Ok resp →
  json resp = Ok data →
  get data (lit "results") = Ok rs →
  nullish rs = true →
  webSearch_execute env fetch q = Ok {| query := q; results := [] |}.
Proof.
  unfold webSearch_execute. intros -> Hj Hg Hn. cbn [bind]. rewrite Hj.
  cbn [bind]. rewrite Hg. cbn [bind]. unfold optional_call. by rewrite Hn.
Qed.

Lemma execute_provider_items out resp data :
  webSearch_execute env fetch q = Ok out →
  fetch (search_request env q) = Ok resp → json resp = Ok data →
  map_in_order to_result (provider_items data) = Ok (results out).
Proof.
  intros H Hf Hj.
  destruct (execute_inv _ H) as (resp' & data' & rs & Hf' & Hj' & Hg & _ & Hr).
  rewrite Hf in Hf'. inversion Hf'; subst resp'.
  rewrite Hj in Hj'. inversion Hj'; subst data'.
  unfold provider_items. rewrite Hg.
  destruct Hr as [[Hn ->]|(items & -> & Hm)]; [|done].
  by destruct rs.
Qed.

End WebSearch.

(** C1 (counterexample).  The specification promises
    [{query, results: []}] for every provider failure and every
    malformed answer.  A rejected [fetch], a body that is not JSON, and
    a [results] field that is no array each make [webSearch.execute]
    throw instead. *)
Lemma C1_failures_propagate :
  webSearch_execute demo_env unreachable (lit "rust") = Throw NetworkError ∧
  webSearch_execute demo_env (respond 502 (Throw SyntaxError)) (lit "rust")
    = Throw SyntaxError ∧
  webSearch_execute demo_env
    (respond 200 (Ok (VObj [(lit "results", VStr (lit "rate limited"))])))
    (lit "rust") = Throw TypeError.
Proof. repeat split; reflexivity. Qed.

(** C1 (amended).  Whatever the HTTP status, when the body of the
    provider's answer parses as JSON to a value that is not null and
    whose [results] field is absent or null, [webSearch.execute] returns
    [{query, results: []}].  A rejected [fetch] and a body that is not
    JSON are not caught: the exception leaves [execute]. *)
Theorem C1_empty_results_when_results_missing env fetch q :
  (∀ resp data rs,
     fetch (search_request env q) = Ok resp →
     json resp = Ok data →
     get data (lit "results") = Ok rs →
     nullish rs = true →
     webSearch_execute env fetch q = Ok {| query := q; results := [] |}) ∧
  (∀ e, fetch (search_request env q) = Throw e →
        webSearch_execute env fetch q = Throw e) ∧
  (∀ resp e, fetch (search_request env q) = Ok resp →
             json resp = Throw e →
             webSearch_execute env fetch q = Throw e).
Proof.
  split; [|split].
  - apply execute_without_results.
  - unfold webSearch_execute. by intros e ->.
  - unfold webSearch_execute. intros resp e -> Hj. cbn [bind]. by rewrite Hj.
Qed.

Lemma C1_empty_results_witness :
  webSearch_execute demo_env (respond 500 (Ok error_body)) (lit "rust")
  = Ok {| query := lit "rust"; results := [] |}.
Proof.
  apply (proj1 (C1_empty_results_when_results_missing
                  demo_env (respond 500 (Ok error_body)) (lit "rust"))
           {| status := 500; json := Ok error_body |} error_body VUndefined);
    reflexivity.
Defined.

(** C3 (counterexample).  The specification bounds the number of
    results by 5 for every provider answer.  An answer with six items
    comes back with six results: [execute] maps the provider's array
    and never cuts it. *)
Lemma C3_six_results_returned :
  ∃ out,
    webSearch_execute demo_env
      (respond 200 (Ok (hits [hit 1; hit 2; hit 3; hit 4; hit 5; hit 6])))
      (lit "rust") = Ok out ∧
    length (results out) = 6.
Proof. eexists. split; reflexivity. Qed.

(** C3 (amended).  Whenever [webSearch.execute] returns, it returns one
    result per item of the provider's [results] array, in order, so at
    most 5 when the provider honours the [max_results: 5] of the
    request; and each result whose [content] is a string holds the first
    500 UTF-16 code units of the provider's text, hence at most 500. *)
Theorem C3_one_result_per_item_content_cut env fetch q out :
  webSearch_execute env fetch q = Ok out →
  ∃ resp data,
    fetch (search_request env q) = Ok resp ∧ json resp = Ok data ∧
    length (results out) = length (provider_items data) ∧
    (length (provider_items data) ≤ 5 → length (results out) ≤ 5) ∧
    ∀ i item s,
      results out !! i = Some item → content item = VStr s →
      length s ≤ 500 ∧
      ∃ r s0, provider_items data !! i = Some r ∧
              get r (lit "content") = Ok (VStr s0) ∧ s = take 500 s0.
Proof.
  intros H.
  destruct (execute_inv _ _ _ _ H) as (resp & data & rs & Hf & Hj & _).
  pose proof (execute_provider_items _ _ _ _ _ _ H Hf Hj) as Hm.
  exists resp, data. split; [done|]. split; [done|].
  pose proof (map_in_order_length _ _ _ Hm) as Hlen.
  split; [done|]. split; [lia|].
  intros i item s Hi Hc.
  destruct (map_in_order_lookup _ _ _ _ _ Hm Hi) as (r & Hr & Hto).
  destruct (to_result_inv _ _ Hto) as (_ & _ & c & Hgc & Hcase).
  rewrite Hc in Hcase.
  destruct Hcase as [[_ ?]|[(s0 & -> & Heq)|(l & _ & ?)]]; try discriminate.
  inversion Heq; subst s. split.
  - rewrite length_take. lia.
  - eauto.
Qed.

Lemma C3_content_cut_witness :
  ∃ out,
    webSearch_execute demo_env (respond 200 (Ok (hits [hit 3; hit 600])))
      (lit "rust") = Ok out ∧
    length (results out) = 2 ∧
    ∀ i item s, results out !! i = Some item → content item = VStr s →
                length s ≤ 500.
Proof.
  eexists. split; [reflexivity|].
  destruct (C3_one_result_per_item_content_cut demo_env
              (respond 200 (Ok (hits [hit 3; hit 600]))) (lit "rust") _
              eq_refl) as (resp & data & _ & _ & _ & _ & Hc).
  split; [reflexivity|].
  intros i item s Hi Hs. exact (proj1 (Hc i item s Hi Hs)).
Defined.

Lemma to_result_shaped tuc : to_result (shaped_item tuc) = Ok (shaped_result tuc).
Proof.
  destruct tuc as [[t u] c]. unfold shaped_result.
  rewrite <- slice_0_500. reflexivity.
Qed.

(** C9.  For every query, the one request [webSearch.execute] issues is
    a POST to the provider whose body is the JSON text of exactly
    [{query, max_results: 5, search_depth: "basic"}], with an
    [Authorization: Bearer <key>] header; [execute] sees the provider
    only through the answer to that request, reads it with
    [response.json()], and turns an answer of shape
    [{results: [{title, url, content}, ...]}] into one result per item
    with the item's title and url and its content cut at 500. *)
Theorem C9_search_request_and_response env q :
  let req := search_request env q in
  req_method req = POST ∧
  req_body req =
    JSON_stringify
      (VObj [ (lit "query", VStr q);
              (lit "max_results", VNum 5);
              (lit "search_depth", VStr (lit "basic")) ]) ∧
  List.In ("Authorization",
           (lit "Bearer " ++ default (lit "undefined") (TAVILY_API_KEY env))%list)
          (req_headers req) ∧
  List.In ("Content-Type", lit "application/json") (req_headers req) ∧
  (∀ fetch fetch' : Fetch,
     fetch req = fetch' req →
     webSearch_execute env fetch q = webSearch_execute env fetch' q) ∧
  (∀ (fetch : Fetch) st items,
     fetch req = Ok {| status := st; json := Ok (hits (shaped_item <$> items)) |} →
     webSearch_execute env fetch q
     = Ok {| query := q; results := shaped_result <$> items |}).
Proof.
  cbv zeta. split; [done|]. split; [done|].
  split; [right; left; done|]. split; [left; done|]. split.
  - intros fetch fetch' H. unfold webSearch_execute. by rewrite H.
  - intros fetch st items H. unfold webSearch_execute. rewrite H.
    cbn [bind json]. change (get (hits (shaped_item <$> items)) (lit "results"))
      with (Ok (A:=value) (VArr (shaped_item <$> items))).
    cbn [bind optional_call nullish call_map].
    rewrite (map_in_order_all_ok to_result
               (fun v => match v with
                         | VObj [(_, VStr t); (_, VStr u); (_, VStr c)] =>
                             shaped_result (t, u, c)
                         | _ => shaped_result ([], [], [])
                         end)).
    + cbn [bind nullish_coalesce]. do 2 f_equal.
      rewrite <- list_fmap_compose. apply list_fmap_ext.
      by intros i [[t u] c] _.
    + intros v Hv. apply list_elem_of_fmap in Hv as ([[t u] c] & -> & _).
      apply (to_result_shaped (t, u, c)).
Qed.

Lemma C9_request_witness :
  webSearch_execute demo_env
    (fun req =>
       match req_method req with
       | POST => Ok {| status := 200;
                       json := Ok (hits (shaped_item <$> [(lit "T", lit "U", lit "C")])) |}
       | GET => Throw NetworkError
       end)
    (lit "rust")
  = Ok {| query := lit "rust";
          results := shaped_result <$> [(lit "T", lit "U", lit "C")] |}.
Proof.
  apply (proj2 (proj2 (proj2 (proj2 (proj2
           (C9_search_request_and_response demo_env (lit "rust"))))))
         _ 200%Z [(lit "T", lit "U", lit "C")]).
  reflexivity.
Defined.

Section WebSearchShapes.
Import Coercion Shapes.
Variables (env : Env) (fetch : Fetch) (q : jsstring).

Lemma to_result_item_ok r :
  if item_ok r then ∃ item, to_result r = Ok item
  else to_result r = Throw TypeError.
Proof.
  unfold item_ok, optional_get, to_result.
  destruct r as [| |b|n|s|l|props]; simpl; eauto.
  destruct (default VUndefined (lookup_prop (lit "content") props));
    simpl; eauto.
Qed.

Lemma map_to_result_items_ok items :
  if forallb item_ok items then ∃ out, map_in_order to_result items = Ok out
  else map_in_order to_result items = Throw TypeError.
Proof.
  induction items as [|r items IH]; simpl; [eauto|].
  pose proof (to_result_item_ok r) as Hr.
  destruct (item_ok r); simpl.
  - destruct Hr as [item ->]. simpl.
    destruct (forallb item_ok items).
    + destruct IH as [out ->]. simpl. eauto.
    + by rewrite IH.
  - by rewrite Hr.
Qed.

End WebSearchShapes.

(** C10 (counterexample).  Totality over missing fields is stated for
    every answer that parses as JSON.  The JSON text [null] parses, has
    no [results] field, and makes [execute] throw on [data.results]; a
    [null] item beside an item without [content] makes the callback
    throw on [r.title]; and an item whose [content] is a number beside
    an item without [content] makes it throw on [r.content?.slice]. *)
Lemma C10_null_raises :
  webSearch_execute demo_env (respond 200 (Ok VNull)) (lit "rust")
    = Throw TypeError ∧
  webSearch_execute demo_env (respond 200 (Ok (hits [bare_hit; VNull])))
    (lit "rust") = Throw TypeError ∧
  webSearch_execute demo_env
    (respond 200 (Ok (hits [bare_hit; VObj [(lit "content", VNum 7)]])))
    (lit "rust") = Throw TypeError.
Proof. repeat split; reflexivity. Qed.

(** C10 (amended).  For every provider answer that parses as a JSON
    value other than null: if the [results] field is absent, [execute]
    returns [{query, results: []}]; a result item that is not null and
    lacks [content] is mapped, without an exception, to its title and
    url with an absent content; and on a [results] array, [execute]
    returns exactly when every item is not null and has a [content]
    that is absent, null, a string or an array, and then it returns one
    result per item, in order, each with the title and url of its item,
    with an absent content where the item lacks [content] and with the
    first 500 code units of the text where it has one, items with and
    items without [content] side by side; on any other array it throws
    a TypeError. *)
Theorem C10_total_over_missing_fields env fetch q resp data :
  fetch (search_request env q) = Ok resp →
  json resp = Ok data →
  nullish data = false →
  (get data (lit "results") = Ok VUndefined →
   webSearch_execute env fetch q = Ok {| query := q; results := [] |}) ∧
  (∀ r, nullish r = false → get r (lit "content") = Ok VUndefined →
        ∃ t u, get r (lit "title") = Ok t ∧ get r (lit "url") = Ok u ∧
               to_result r = Ok {| title := t; url := u; content := VUndefined |}) ∧
  (∀ items,
     get data (lit "results") = Ok (VArr items) →
     if forallb Shapes.item_ok items
     then ∃ out,
       webSearch_execute env fetch q = Ok out ∧ query out = q ∧
       length (results out) = length items ∧
       ∀ i r, items !! i = Some r →
         ∃ item, results out !! i = Some item ∧
                 get r (lit "title") = Ok (title item) ∧
                 get r (lit "url") = Ok (url item) ∧
                 (get r (lit "content") = Ok VUndefined →
                  content item = VUndefined) ∧
                 (∀ s, get r (lit "content") = Ok (VStr s) →
                       content item = VStr (take 500 s))
     else webSearch_execute env fetch q = Throw TypeError).
Proof.
  intros Hf Hj Hd. split; [|split].
  - intros Hg.
    by apply (execute_without_results env fetch q resp data VUndefined).
  - apply to_result_without_content.
  - intros items Hg.
    assert (webSearch_execute env fetch q
            = let! mapped := map_in_order to_result items in
              Ok {| query := q; results := mapped |}) as ->.
    { unfold webSearch_execute. rewrite Hf. cbn [bind]. rewrite Hj.
      cbn [bind]. rewrite Hg. cbn [bind optional_call nullish call_map].
      by destruct (map_in_order to_result items). }
    pose proof (map_to_result_items_ok items) as Hm.
    destruct (forallb Shapes.item_ok items); [|by rewrite Hm].
    destruct Hm as [rs Hm]. rewrite Hm. cbn [bind].
    exists {| query := q; results := rs |}.
    split; [done|]. split; [done|].
    split; [exact (map_in_order_length _ _ _ Hm)|].
    intros i r Hi. cbn [results].
    destruct (map_in_order_lookup_fwd _ _ _ _ _ Hm Hi) as (item & Hitem & Hto).
    destruct (to_result_inv _ _ Hto) as (Ht & Hu & c & Hc & Hcase).
    exists item. split; [done|]. split; [done|]. split; [done|]. split.
    + intros Hu'. rewrite Hu' in Hc. inversion Hc; subst c.
      by destruct Hcase as [[_ ?]|[(s & ? & _)|(l & ? & _)]].
    + intros s Hs. rewrite Hs in Hc. inversion Hc; subst c.
      destruct Hcase as [[? _]|[(s0 & Heq & ?)|(l & ? & _)]];
        try discriminate.
      by inversion Heq; subst s0.
Qed.

Lemma C10_missing_fields_witness :
  webSearch_execute demo_env (respond 200 (Ok error_body)) (lit "rust")
    = Ok {| query := lit "rust"; results := [] |} ∧
  ∃ out, webSearch_execute demo_env
           (respond 200 (Ok (hits [hit 3; bare_hit]))) (lit "rust") = Ok out ∧
         length (results out) = 2 ∧
         ∃ item, results out !! 1%nat = Some item ∧ content item = VUndefined.
Proof.
  split.
  - apply (proj1 (C10_total_over_missing_fields demo_env
                    (respond 200 (Ok error_body)) (lit "rust")
                    {| status := 200%Z; json := Ok error_body |} error_body
                    eq_refl eq_refl eq_refl)).
    reflexivity.
  - destruct (C10_total_over_missing_fields demo_env
                (respond 200 (Ok (hits [hit 3; bare_hit]))) (lit "rust")
                {| status := 200%Z; json := Ok (hits [hit 3; bare_hit]) |}
                (hits [hit 3; bare_hit]) eq_refl eq_refl eq_refl)
      as (_ & _ & Harr).
    destruct (Harr [hit 3; bare_hit] eq_refl)
      as (out & Hout & _ & Hlen & Hitems).
    exists out. split; [exact Hout|]. split; [exact Hlen|].
    destruct (Hitems 1%nat bare_hit eq_refl) as (item & Hi & _ & _ & Hc & _).
    exists item. split; [exact Hi|]. apply Hc. reflexivity.
Defined.

(* ===================================================================== *)
(** ** Theorems: ContextPruner                                           *)
(* ===================================================================== *)

Section PrunerFacts.
Import Conversation Pruner.

Lemma filter_twice {A} (f : A → bool) (l : list A) :
  List.filter f (List.filter f l) = List.filter f l.
Proof.
  induction l as [|x l IH]; simpl; [done|].
  destruct (f x) eqn:E; simpl; rewrite ?E, IH; done.
Qed.

Lemma strip_tools_idem m : strip_tools (strip_tools m) = strip_tools m.
Proof. unfold strip_tools. simpl. by rewrite filter_twice. Qed.

Lemma prune_length ms P : length (prune ms P) = length ms.
Proof.
  destruct P as [n]. unfold prune.
  rewrite length_app, length_fmap, length_take, length_drop. lia.
Qed.

(** The recent Messages are kept as they are. *)
Lemma prune_keeps_recent ms n :
  drop (length ms - n) (prune ms (before_last_messages n))
  = drop (length ms - n) ms.
Proof.
  unfold prune. rewrite drop_app_length'; [done|].
  rewrite length_fmap, length_take. lia.
Qed.

(** Pruning does reduce a history: an old tool payload goes, a recent
    one stays. *)
Example prune_drops_old_tool_parts :
  let call := tool_call "webSearch" "c1" (JS.VStr (JS.lit "rust")) in
  let res := tool_result "c1" (JS.Ok JS.VNull) completed in
  let a := {| role := assistant; parts := [text (JS.lit "hm"); call; res] |} in
  let u := {| role := user; parts := [text (JS.lit "and?")] |} in
  prune [a; u; a] before_last_2_messages
  = [ {| role := assistant; parts := [text (JS.lit "hm")] |}; u; a ].
Proof. reflexivity. Qed.

End PrunerFacts.

(** C5.  The ContextPruner is idempotent: for every Message sequence and
    every policy, pruning a pruned sequence with the same policy changes
    nothing; in particular for the policy before-last-2-messages that
    the server uses. *)
Theorem C5_prune_idempotent (ms : list Conversation.Message) (P : Pruner.policy) :
  Pruner.prune (Pruner.prune ms P) P = Pruner.prune ms P ∧
  Pruner.prune (Pruner.prune ms Pruner.before_last_2_messages)
    Pruner.before_last_2_messages
  = Pruner.prune ms Pruner.before_last_2_messages.
Proof.
  assert (∀ P, Pruner.prune (Pruner.prune ms P) P = Pruner.prune ms P) as H;
    [|split; apply H].
  clear P. intros [n].
  pose proof (prune_length ms (Pruner.before_last_messages n)) as Hlen.
  unfold Pruner.prune at 1. rewrite Hlen.
  set (cut := length ms - n).
  unfold Pruner.prune. fold cut.
  assert (length (Pruner.strip_tools <$> take cut ms) = cut) as Hcut.
  { rewrite length_fmap, length_take. lia. }
  rewrite take_app_length', drop_app_length' by done.
  f_equal. rewrite <- list_fmap_compose. apply list_fmap_ext.
  intros i m _. apply strip_tools_idem.
Qed.

(* ===================================================================== *)
(** ** Theorems: the stored history                                      *)
(* ===================================================================== *)

Section HeapFacts.

Lemma alloc_spec c (h : heap) l h' :
  alloc c h = (l, h') → h !! l = None ∧ h' = <[l := c]> h.
Proof.
  unfold alloc. intros H. inversion H; subst. split; [|done].
  apply not_elem_of_dom. apply is_fresh.
Qed.

Lemma alloc_returns_fresh c : returns_fresh (alloc c).
Proof.
  intros h l h' H. destruct (alloc_spec _ _ _ _ H) as [Hl ->].
  split; [done|]. intros k [v Hk].
  rewrite lookup_insert_ne; [done|]. intros ->. congruence.
Qed.

Lemma convert_fresh_returns_fresh l : returns_fresh (convert_fresh l).
Proof.
  intros h l' h'. unfold convert_fresh.
  destruct (h !! l) as [[ms|ms]|]; apply alloc_returns_fresh.
Qed.

Lemma prune_fresh_writes l P : writes_at_most l (prune_fresh l P).
Proof.
  intros h l' h' H k _ Hk. unfold prune_fresh in H.
  destruct (h !! l) as [[ms|ms]|];
    by apply (alloc_returns_fresh _ _ _ _ H).
Qed.

Lemma prune_in_place_writes l P : writes_at_most l (prune_in_place l P).
Proof.
  intros h l' h' H k Hne _. unfold prune_in_place in H.
  destruct (h !! l) as [[ms|ms]|]; inversion H; subst; try done.
  by rewrite lookup_insert_ne.
Qed.

End HeapFacts.

(** C7.  The stored history is left unchanged by context pruning.
    [onChatMessage] hands [this.messages] to the conversion and hands
    the conversion's result, not the history, to the pruner: as long as
    the conversion builds a new array, the array of the stored history
    is the same after the call as before, even with a pruner that
    overwrites its argument.  With the pruner of the spec the view given
    to the generation call is [prune] of the converted history under
    the policy, a function of the history and the policy alone. *)
Theorem C7_pruning_leaves_history this fetch on_finish options
    (h : heap) hist :
  h !! this_messages this = Some (UIMessages hist) →
  (∀ convert prune opts h',
     (∀ l, returns_fresh (convert l)) →
     (∀ l P, writes_at_most l (prune l P)) →
     onChatMessage convert prune fetch this on_finish options h = (opts, h') →
     h' !! this_messages this = Some (UIMessages hist)) ∧
  (∀ prune,
     prune = prune_in_place ∨ prune = prune_fresh →
     ∃ opts h',
       onChatMessage convert_fresh prune fetch this on_finish options h
         = (opts, h') ∧
       h' !! this_messages this = Some (UIMessages hist) ∧
       h' !! messages opts
         = Some (ModelMessages
                   (Pruner.prune (convert_message <$> hist)
                      Pruner.before_last_2_messages))).
Proof.
  intros Hh.
  assert (∀ convert prune opts h',
     (∀ l, returns_fresh (convert l)) →
     (∀ l P, writes_at_most l (prune l P)) →
     onChatMessage convert prune fetch this on_finish options h = (opts, h') →
     h' !! this_messages this = Some (UIMessages hist)) as Hframe.
  { intros convert prune opts h' Hc Hp H. unfold onChatMessage in H.
    destruct (convert (this_messages this) h) as [converted h1] eqn:E1.
    destruct (prune converted Pruner.before_last_2_messages h1)
      as [pruned h2] eqn:E2.
    inversion H; subst h'. clear H.
    destruct (Hc _ _ _ _ E1) as [Hnew Hkeep].
    assert (h1 !! this_messages this = Some (UIMessages hist)) as Hkept.
    { rewrite Hkeep; [done|]. by eexists. }
    rewrite (Hp _ _ _ _ _ E2); [done| |by eexists].
    intros Heq. rewrite Heq, Hnew in Hh. discriminate. }
  split; [exact Hframe|].
  intros prune Hprune.
  destruct (onChatMessage convert_fresh prune fetch this on_finish options h)
    as [opts h'] eqn:E.
  exists opts, h'. split; [done|]. split.
  - apply (Hframe convert_fresh prune opts h'); [| |done].
    + apply convert_fresh_returns_fresh.
    + destruct Hprune as [-> | ->];
        [apply prune_in_place_writes | apply prune_fresh_writes].
  - unfold onChatMessage, convert_fresh in E. rewrite Hh in E.
    unfold alloc in E at 1.
    set (l1 := fresh (dom h)) in E.
    set (h1 := <[l1 := ModelMessages (convert_message <$> hist)]> h) in E.
    assert (h1 !! l1 = Some (ModelMessages (convert_message <$> hist))) as Hl1
      by apply lookup_insert_eq.
    destruct Hprune as [-> | ->].
    + unfold prune_in_place in E. rewrite Hl1 in E.
      inversion E; subst; simpl. apply lookup_insert_eq.
    + unfold prune_fresh in E. rewrite Hl1 in E. unfold alloc in E.
      inversion E; subst; simpl. apply lookup_insert_eq.
Qed.

Lemma C7_history_witness :
  snd (onChatMessage convert_fresh prune_in_place unreachable demo_agent
         (callback 0) None demo_heap) !! 0%nat
  = Some (UIMessages demo_history).
Proof.
  apply (proj1 (C7_pruning_leaves_history demo_agent unreachable (callback 0)
                  None demo_heap demo_history eq_refl)
           convert_fresh prune_in_place
           (fst (onChatMessage convert_fresh prune_in_place unreachable
                   demo_agent (callback 0) None demo_heap))).
  - apply convert_fresh_returns_fresh.
  - intros l P. apply prune_in_place_writes.
  - apply surjective_pairing.
Defined.

(** The in-place pruner does overwrite the array it is given: the view
    differs from the converted history, the stored history does not. *)
Example in_place_pruning_changes_only_the_view :
  let '(opts, h') :=
    onChatMessage convert_fresh prune_in_place unreachable demo_agent
      (callback 0) None demo_heap in
  h' !! messages opts
    = Some (ModelMessages
              (Pruner.prune (convert_message <$> demo_history)
                 Pruner.before_last_2_messages)) ∧
  Pruner.prune (convert_message <$> demo_history) Pruner.before_last_2_messages
    ≠ convert_message <$> demo_history ∧
  h' !! 0%nat = Some (UIMessages demo_history).
Proof. vm_compute. repeat split. discriminate. Qed.

(* ===================================================================== *)
(** ** Theorems: StepOrchestrator                                        *)
(* ===================================================================== *)

Section OrchestratorFacts.
Import Conversation Orchestrator.

Lemma has_result_app id m1 m2 :
  has_result id (m1 ++ m2) = has_result id m1 || has_result id m2.
Proof. unfold has_result. apply existsb_app. Qed.

Lemma paired_app_len n :
  ∀ l1 l2, length l1 ≤ n → paired l1 = true →
           paired (l1 ++ l2) = paired l2.
Proof.
  induction n as [|n IH]; intros l1 l2 Hn H.
  - destruct l1; [done|simpl in Hn; lia].
  - destruct l1 as [|p l1]; [done|].
    destruct p as [t|t st|name id input|id out ap]; simpl in *.
    + apply IH; [lia|done].
    + apply IH; [lia|done].
    + destruct l1 as [|p' l1]; [discriminate|].
      destruct p' as [t|t st|name' id' input'|id' out ap]; try discriminate.
      apply andb_true_iff in H as [He Hp]. simpl. rewrite He. simpl.
      apply IH; [simpl in Hn; lia|done].
    + discriminate.
Qed.

Lemma paired_app l1 l2 :
  paired l1 = true → paired (l1 ++ l2) = paired l2.
Proof. apply (paired_app_len (length l1)). lia. Qed.



Lemma paired_call_with_result msg c out :
  paired msg = true → paired (msg ++ call_with_result c out) = true.
Proof.
  intros H. rewrite paired_app by done. simpl.
  by rewrite String.eqb_refl.
Qed.

Lemma find_result_app id rs1 rs2 :
  find_result id (rs1 ++ rs2)
  = match find_result id rs1 with
    | Some out => Some out
    | None => find_result id rs2
    end.
Proof.
  induction rs1 as [|[id' out] rs1 IH]; simpl; [done|].
  by destruct (String.eqb id id').
Qed.

Lemma flush_spec calls rs msg calls' msg' :
  flush calls rs msg = (calls', msg') →
  paired msg = true →
  paired msg' = true ∧ msg `prefix_of` msg' ∧
  match calls' with
  | [] => True
  | c :: _ => find_result (call_id c) rs = None
  end.
Proof.
  revert msg. induction calls as [|c calls IH]; intros msg H Hp; simpl in H.
  - by inversion H; subst.
  - destruct (find_result (call_id c) rs) as [out|] eqn:E.
    + destruct (IH _ H (paired_call_with_result _ c out Hp)) as (Hp' & Hpre & Hhd).
      split; [done|]. split; [|done].
      etrans; [|exact Hpre]. by apply prefix_app_r.
    + by inversion H; subst.
Qed.

Lemma settle_inv cap s :
  (steps s ≤ Nat.max 1 cap)%nat → paired (message s) = true →
  inv cap (settle cap s).
Proof.
  intros Hs Hp. unfold settle.
  destruct (flush (pending s) (inflight s) (message s)) as [calls msg] eqn:E.
  destruct (flush_spec _ _ _ _ _ E Hp) as (Hp' & _ & Hhd).
  destruct calls as [|c calls].
  - destruct (steps s <? cap)%nat eqn:Hlt; repeat split; simpl; try done.
    apply Nat.ltb_lt in Hlt. lia.
  - repeat split; simpl; done.
Qed.

Lemma step_inv cap s e : inv cap s → inv cap (step cap s e).
Proof.
  intros (Hs & Hp & Hph). unfold step.
  destruct e; destruct (st_phase s) eqn:E; simpl;
    try (by repeat split; rewrite ?E);
    try (by apply settle_inv);
    try (repeat split; simpl; rewrite ?E; try done;
         first [ lia
               | by rewrite paired_app
               | by destruct Hph
               | by destruct (pending s) ]).
Qed.

Lemma run_inv cap s trace : inv cap s → inv cap (run cap s trace).
Proof.
  revert s. induction trace as [|e trace IH]; intros s H; simpl; [done|].
  apply IH. by apply step_inv.
Qed.

Lemma initial_inv cap : inv cap initial.
Proof. repeat split; simpl; try done; lia. Qed.

Lemma run_app cap s t1 t2 :
  run cap s (t1 ++ t2) = run cap (run cap s t1) t2.
Proof. apply fold_left_app. Qed.

Lemma terminal_is_final cap s e :
  terminal (st_phase s) = true → e ≠ UserMessage → step cap s e = s.
Proof. intros E He. unfold step. by destruct (st_phase s), e. Qed.

Lemma terminal_stays cap s later :
  terminal (st_phase s) = true → ¬ In UserMessage later →
  run cap s later = s.
Proof.
  intros E. induction later as [|e later IH]; intros Hnot; simpl; [done|].
  rewrite terminal_is_final; [|done|].
  - apply IH. intros Hin. apply Hnot. by right.
  - intros ->. apply Hnot. by left.
Qed.

Lemma settle_at_cap cap s :
  steps s = cap →
  let s' := settle cap s in
  steps s' = cap ∧ message s `prefix_of` message s' ∧
  (st_phase s' = Done ∨ (st_phase s' = Executing ∧ pending s' ≠ [])).
Proof.
  intros Hs. unfold settle.
  destruct (flush (pending s) (inflight s) (message s)) as [calls msg] eqn:E.
  assert (message s `prefix_of` msg) as Hp.
  { clear Hs. revert E. generalize (message s) as m.
    induction (pending s) as [|c cs IH]; intros m E; simpl in E.
    - inversion E; subst. done.
    - destruct (find_result (call_id c) (inflight s)).
      + etrans; [|exact (IH _ E)]. by apply prefix_app_r.
      + inversion E; subst. done. }
  destruct calls as [|c calls]; simpl.
  - rewrite Hs, Nat.ltb_irrefl. simpl. auto.
  - split; [done|]. split; [done|]. right. done.
Qed.

Lemma step_fragment cap f s :
  st_phase s = Generating ∨ st_phase s = ToolsPending →
  step cap s (event_of f)
  = {| st_phase := match f with
                   | FCall _ => ToolsPending
                   | _ => st_phase s
                   end;
       steps := steps s;
       message := message s ++ streamed [f];
       pending := pending s ++ calls_of [f];
       inflight := inflight s |}.
Proof.
  intros Hph. unfold step.
  destruct f as [t|t st|c]; simpl;
    destruct Hph as [E|E]; rewrite E; simpl; unfold append;
    rewrite ?E, ?app_nil_r; done.
Qed.

(** The fragments of a step, streamed into a state that is generating. *)
Lemma run_fragments cap fs :
  ∀ s, st_phase s = Generating ∨ st_phase s = ToolsPending →
    run cap s (map event_of fs)
    = {| st_phase := match calls_of fs with
                     | [] => st_phase s
                     | _ :: _ => ToolsPending
                     end;
         steps := steps s;
         message := message s ++ streamed fs;
         pending := pending s ++ calls_of fs;
         inflight := inflight s |}.
Proof.
  induction fs as [|f fs IH]; intros s Hph.
  - simpl. rewrite !app_nil_r. by destruct s.
  - change (run cap s (map event_of (f :: fs)))
      with (run cap (step cap s (event_of f)) (map event_of fs)).
    rewrite (step_fragment cap f s Hph). rewrite IH.
    + cbn [st_phase steps message pending inflight].
      rewrite <- !app_assoc.
      destruct f as [t|t st|c]; cbn [streamed calls_of app]; try done.
      by destruct (calls_of fs).
    + cbn [st_phase]. destruct f; auto.
Qed.

(** The result of the first pending call arrives. *)
Lemma step_head_result cap n m c cs inf out :
  find_result (call_id c) inf = None →
  match cs with
  | [] => True
  | c2 :: _ => find_result (call_id c2) inf = None ∧ call_id c2 ≠ call_id c
  end →
  step cap {| st_phase := Executing; steps := n; message := m;
              pending := c :: cs; inflight := inf |}
       (ToolSettled (call_id c) out)
  = match cs with
    | [] =>
        {| st_phase := if (n <? cap)%nat then Generating else Done;
           steps := if (n <? cap)%nat then S n else n;
           message := m ++ call_with_result c out;
           pending := []; inflight := [] |}
    | _ :: _ =>
        {| st_phase := Executing; steps := n;
           message := m ++ call_with_result c out;
           pending := cs; inflight := inf ++ [(call_id c, out)] |}
    end.
Proof.
  intros Hc Hcs. unfold step, settle.
  cbn [st_phase steps message pending inflight flush].
  rewrite find_result_app, Hc. cbn [find_result].
  rewrite String.eqb_refl.
  destruct cs as [|c2 cs]; cbn [flush].
  - by destruct (n <? cap)%nat.
  - destruct Hcs as [Hc2 Hne]. rewrite find_result_app, Hc2.
    cbn [find_result]. apply String.eqb_neq in Hne. by rewrite Hne.
Qed.

(** The results of the pending calls, arriving in request order. *)
Lemma run_results cap exec cs :
  ∀ n m inf,
    NoDup (map call_id cs) → cs ≠ [] →
    (∀ c, In c cs → find_result (call_id c) inf = None) →
    run cap {| st_phase := Executing; steps := n; message := m;
               pending := cs; inflight := inf |}
        (map (fun c => ToolSettled (call_id c) (exec c)) cs)
    = {| st_phase := if (n <? cap)%nat then Generating else Done;
         steps := if (n <? cap)%nat then S n else n;
         message := m ++ concat (map (fun c => call_with_result c (exec c)) cs);
         pending := []; inflight := [] |}.
Proof.
  induction cs as [|c cs IH]; intros n m inf Hnd Hne Hinf; [done|].
  change (run cap ?s (map ?f (c :: cs)))
    with (run cap (step cap s (f c)) (map f cs)).
  cbn beta.
  cbn [map] in Hnd. apply NoDup_cons in Hnd as [Hnotin Hnd].
  assert (∀ c', In c' cs → call_id c' ≠ call_id c) as Hother.
  { intros c' Hc' Heq. apply Hnotin. rewrite <- Heq.
    apply list_elem_of_In. by apply in_map. }
  rewrite step_head_result.
  - destruct cs as [|c2 cs].
    + cbn [map concat run fold_left]. by rewrite app_nil_r.
    + rewrite IH.
      * cbn [map concat]. by rewrite <- app_assoc.
      * done.
      * done.
      * intros c' Hc'. rewrite find_result_app, (Hinf c') by (by right).
        cbn [find_result].
        pose proof (Hother c' Hc') as Hne'.
        apply String.eqb_neq in Hne'. by rewrite Hne'.
  - apply Hinf. by left.
  - destruct cs as [|c2 cs]; [done|]. split.
    + apply Hinf. right. by left.
    + apply Hother. by left.
Qed.

(** One whole step, from a state that is generating. *)
Lemma run_step_trace cap exec fs s :
  st_phase s = Generating → pending s = [] → inflight s = [] →
  NoDup (map call_id (calls_of fs)) →
  run cap s (step_trace exec fs)
  = {| st_phase := match calls_of fs with
                   | [] => Done
                   | _ :: _ => if (steps s <? cap)%nat then Generating else Done
                   end;
       steps := match calls_of fs with
                | [] => steps s
                | _ :: _ => if (steps s <? cap)%nat then S (steps s) else steps s
                end;
       message := message s ++ step_parts exec fs;
       pending := []; inflight := [] |}.
Proof.
  intros Hph Hpend Hinf Hnd. unfold step_trace, step_parts.
  rewrite run_app, run_fragments by (by left).
  rewrite Hph, Hpend, Hinf. cbn [app].
  match goal with
  | |- run cap ?x (Finish :: ?t) = _ =>
      change (run cap x (Finish :: t)) with (run cap (step cap x Finish) t)
  end.
  destruct (calls_of fs) as [|c cs] eqn:Ecalls.
  - cbn. by rewrite !app_nil_r.
  - unfold step, settle.
    cbn [st_phase steps message pending inflight flush find_result].
    rewrite (run_results cap exec (c :: cs)); [|done|done|done].
    by rewrite <- app_assoc.
Qed.

End OrchestratorFacts.

(** C2.  The server caps the loop at [stepCountIs(10)].  Under that cap
    the orchestrator never issues more than 10 generation requests for
    one user Message, whatever the model, the tools and the client do.
    Once 10 are issued, no event but a new user Message starts another;
    the sequence fails only on a transport error; the event that
    completes the tenth step leaves the orchestrator Done (or waiting
    for the step's remaining results), with everything generated so far
    kept; and Done is final: nothing but a new user Message changes it.
    A generation step that streams its fragments, finishes, and gets
    the results of its calls in request order leaves exactly the Message
    of before followed by what the step streamed and by each call with
    its result; when that step asked for no tool, or was the tenth, the
    sequence is then Done, with that Message as the final one. *)
Theorem C2_at_most_ten_generation_steps convert prune fetch this on_finish
    options (h : gmap nat cell) trace :
  let opts := fst (onChatMessage convert prune fetch this on_finish options h) in
  let cap := Orchestrator.step_cap (stopWhen opts) in
  let s := Orchestrator.run cap Orchestrator.initial trace in
  cap = 10 ∧
  Orchestrator.steps s ≤ 10 ∧
  (Orchestrator.steps s = 10 →
   ∀ e, e ≠ Orchestrator.UserMessage →
     let s' := Orchestrator.step cap s e in
     Orchestrator.steps s' = 10 ∧
     (Orchestrator.st_phase s' = Orchestrator.Failed →
      Orchestrator.st_phase s = Orchestrator.Failed
      ∨ e = Orchestrator.TransportError) ∧
     (Orchestrator.completes s e = true →
      Orchestrator.message s `prefix_of` Orchestrator.message s' ∧
      (Orchestrator.st_phase s' = Orchestrator.Done ∨
       (Orchestrator.st_phase s' = Orchestrator.Executing ∧
        Orchestrator.pending s' ≠ []))) ∧
     (Orchestrator.st_phase s' = Orchestrator.Done →
      ∀ e', e' ≠ Orchestrator.UserMessage →
        Orchestrator.step cap s' e' = s')) ∧
  (∀ exec fs,
     Orchestrator.st_phase s = Orchestrator.Generating →
     NoDup (map Orchestrator.call_id (Orchestrator.calls_of fs)) →
     let s' := Orchestrator.run cap s (Orchestrator.step_trace exec fs) in
     Orchestrator.message s'
     = (Orchestrator.message s ++ Orchestrator.step_parts exec fs)%list ∧
     Orchestrator.pending s' = [] ∧
     (Orchestrator.calls_of fs = [] →
      Orchestrator.st_phase s' = Orchestrator.Done ∧
      Orchestrator.steps s' = Orchestrator.steps s) ∧
     (Orchestrator.steps s = 10 →
      Orchestrator.st_phase s' = Orchestrator.Done ∧
      Orchestrator.steps s' = 10) ∧
     (Orchestrator.st_phase s' = Orchestrator.Done →
      ∀ later, ¬ In Orchestrator.UserMessage later →
               Orchestrator.run cap s' later = s')).
Proof.
  assert (Orchestrator.step_cap
            (stopWhen (fst (onChatMessage convert prune fetch this on_finish
                              options h))) = 10) as Hcap.
  { unfold onChatMessage.
    destruct (convert (this_messages this) h) as [converted h1].
    by destruct (prune converted Pruner.before_last_2_messages h1). }
  cbv zeta. rewrite Hcap. split; [done|].
  set (s := Orchestrator.run 10 Orchestrator.initial trace).
  assert (Orchestrator.inv 10 s) as (Hs & Hpaired & Hph)
    by apply run_inv, initial_inv.
  split; [simpl in Hs; lia|]. split.
  - intros H10 e He. split; [|split; [|split]];
      [| | |intros Hd e' He'; apply terminal_is_final; [by rewrite Hd|done]].
    + unfold Orchestrator.step.
      destruct e; try done; destruct (Orchestrator.st_phase s); simpl; try done;
        by apply settle_at_cap.
    + unfold Orchestrator.step.
      destruct e; try done;
        destruct (Orchestrator.st_phase s) eqn:E; simpl; rewrite ?E; auto;
        try discriminate;
        intros Hf;
        match goal with
        | H : Orchestrator.st_phase (Orchestrator.settle ?c ?x) = _ |- _ =>
            destruct (settle_at_cap c x) as (_ & _ & [Hd | [Hd _]]);
            [done | rewrite Hd in H; discriminate .. ]
        end.
    + unfold Orchestrator.completes, Orchestrator.step.
      destruct (Orchestrator.st_phase s) eqn:E; destruct e; try discriminate;
        intros _; simpl.
      * split; [done|]. by left.
      * destruct (settle_at_cap 10 s H10) as (_ & Hp & Hd). done.
      * match goal with
        | |- context [Orchestrator.settle 10 ?x] =>
            destruct (settle_at_cap 10 x H10) as (_ & Hp & Hd)
        end. done.
  - intros exec fs Hgen Hnd. rewrite Hgen in Hph. destruct Hph as [Hpend Hinf].
    rewrite (run_step_trace 10 exec fs s Hgen Hpend Hinf Hnd).
    cbn [Orchestrator.message Orchestrator.pending Orchestrator.st_phase
         Orchestrator.steps].
    split; [done|]. split; [done|]. split; [|split].
    + by intros ->.
    + intros H10. rewrite H10. by destruct (Orchestrator.calls_of fs).
    + intros Hd later Hl. by apply terminal_stays; [rewrite Hd|].
Qed.

Lemma C2_ten_steps_witness :
  let s := Orchestrator.run 10 Orchestrator.initial (tool_rounds 9) in
  let s' := Orchestrator.run 10 s
              (Orchestrator.step_trace search_answer tenth_step) in
  Orchestrator.steps s ≤ 10 ∧
  Orchestrator.st_phase s' = Orchestrator.Done ∧
  Orchestrator.steps s' = 10 ∧
  Orchestrator.message s'
  = (Orchestrator.message s
     ++ Orchestrator.step_parts search_answer tenth_step)%list.
Proof.
  cbv zeta.
  destruct (C2_at_most_ten_generation_steps
              convert_fresh prune_in_place unreachable demo_agent
              (callback 0) None demo_heap (tool_rounds 9))
    as (_ & Hle & _ & Hstep).
  split; [exact Hle|].
  destruct (Hstep search_answer tenth_step eq_refl
              ltac:(apply NoDup_singleton))
    as (Hmsg & _ & _ & Hten & _).
  destruct (Hten eq_refl) as [Hd H10].
  split; [exact Hd|]. split; [exact H10|exact Hmsg].
Defined.

(** A model that asks for a search in every step is cut off after the
    tenth: the sequence is Done, not Failed, and the Message holds the
    text, the call and the result of all ten steps. *)
Example ten_rounds_then_done :
  let s := Orchestrator.run 10 Orchestrator.initial (tool_rounds 12) in
  Orchestrator.st_phase s = Orchestrator.Done ∧
  Orchestrator.steps s = 10 ∧
  length (Orchestrator.message s) = 30 ∧
  Orchestrator.paired (Orchestrator.message s) = true.
Proof. vm_compute. done. Qed.



(* ===================================================================== *)
(** ** Theorems: the client                                              *)
(* ===================================================================== *)

(** C4.  [getUserTimezone] is handed to the generation call with an
    empty-object input schema and no execution body, while [webSearch]
    has one; the client's [onToolCall] answers a call of that tool name,
    through the [addToolOutput] of the event, with the browser's time
    zone and local time under the id of the call, and answers no other
    tool. *)
Theorem C4_timezone_declared_on_server_answered_by_client
    convert prune fetch this on_finish options (h : gmap nat cell)
    browser event :
  let registry :=
    opt_tools (fst (onChatMessage convert prune fetch this on_finish options h)) in
  execute (getUserTimezone registry) = None ∧
  inputSchema (getUserTimezone registry) = z_object [] ∧
  (∃ body, execute (webSearch registry) = Some body) ∧
  (Client.has_addToolOutput event = true →
   Client.toolName (Client.toolCall event) = "getUserTimezone" →
   Client.onToolCall browser event
   = [Client.addToolOutput (Client.toolCallId (Client.toolCall event))
        {| Client.timezone := Client.resolved_timeZone browser;
           Client.localTime := Client.toLocaleTimeString browser |}]) ∧
  (Client.toolName (Client.toolCall event) ≠ "getUserTimezone" →
   Client.onToolCall browser event = []).
Proof.
  cbv zeta. unfold onChatMessage.
  destruct (convert (this_messages this) h) as [converted h1].
  destruct (prune converted Pruner.before_last_2_messages h1) as [pruned h2].
  simpl. split; [done|]. split; [done|]. split; [by eexists|].
  unfold Client.onToolCall. split.
  - intros -> ->. reflexivity.
  - intros Hne. apply String.eqb_neq in Hne. rewrite Hne.
    by rewrite andb_false_r.
Qed.

Lemma C4_timezone_witness :
  Client.onToolCall demo_browser timezone_event
  = [Client.addToolOutput "call-7"
       {| Client.timezone := lit "Europe/Paris";
          Client.localTime := lit "10:15:00 AM" |}].
Proof.
  exact (proj1 (proj2 (proj2 (proj2
           (C4_timezone_declared_on_server_answered_by_client
              convert_fresh prune_in_place unreachable demo_agent (callback 0)
              None demo_heap demo_browser timezone_event))))
         eq_refl eq_refl).
Defined.

Section ClientFacts.
Import Client.

Lemma send_guarded c :
  isStreaming c = true → send c = (c, []).
Proof. unfold send. intros ->. by rewrite orb_true_r. Qed.

(** X11.  While an answer is in flight, no control but the prompt bubble
    sends a message: [send] returns early, the input area and the
    suggestion buttons are disabled, the send button is replaced by the
    stop button. *)
Lemma only_the_bubble_sends_while_streaming c a :
  isStreaming c = true → a ≠ ClickPromptBubble →
  ∀ m, ¬ In (sendMessage m) (snd (act c a)).
Proof.
  intros Hs Ha m. unfold act.
  destruct a; try done; rewrite ?(send_guarded c Hs), ?Hs, ?orb_true_r;
    simpl; try tauto.
  - destruct (messages c); simpl; tauto.
  - intros [H|[]]. discriminate.
  - intros [H|[]]. discriminate.
Qed.

End ClientFacts.

(** C8.  The specification: no new user Message is accepted while a
    step sequence of the session is in progress.  [send] and the suggestion
    buttons check [isStreaming]; the click handler of the prompt bubble
    does not: while the answer streams, a click on the bubble calls
    [sendMessage] with the bubble's text. *)
Theorem C8_prompt_bubble_sends_while_streaming :
  Client.isStreaming streaming_chat = true ∧
  Client.act streaming_chat Client.ClickPromptBubble
  = (streaming_chat,
     [Client.sendMessage
        (Client.user_text (lit "Compare CRMs for a 5-person startup."))]) ∧
  Client.act (Client.setInput (lit "another question") streaming_chat)
             Client.SubmitForm
  = (Client.setInput (lit "another question") streaming_chat, []).
Proof. repeat split. Qed.

(* ===================================================================== *)
(** ** More on webSearch                                                 *)
(* ===================================================================== *)

(** X1.  [webSearch.execute] never looks at the HTTP status: two answers
    to its request whose bodies parse alike give the same outcome, so a
    500 with a body is handled like a 200. *)
Theorem execute_ignores_http_status env (fetch fetch' : Fetch) q resp resp' :
  fetch (search_request env q) = Ok resp →
  fetch' (search_request env q) = Ok resp' →
  json resp = json resp' →
  webSearch_execute env fetch q = webSearch_execute env fetch' q.
Proof.
  intros H H' Hj. unfold webSearch_execute. rewrite H, H'. cbn [bind].
  by rewrite Hj.
Qed.

Lemma execute_ignores_http_status_witness :
  webSearch_execute demo_env (respond 200 (Ok (hits [hit 3]))) (lit "rust")
  = webSearch_execute demo_env (respond 500 (Ok (hits [hit 3]))) (lit "rust").
Proof.
  apply (execute_ignores_http_status demo_env
           (respond 200 (Ok (hits [hit 3]))) (respond 500 (Ok (hits [hit 3])))
           (lit "rust")
           {| status := 200; json := Ok (hits [hit 3]) |}
           {| status := 500; json := Ok (hits [hit 3]) |});
    reflexivity.
Defined.

(** X2.  Once the body has parsed, [webSearch.execute] returns exactly
    on the answers that are not null and whose [results] is absent,
    null, or an array of items that are not null and whose [content] is
    absent, null, a string or an array; on every other parsed answer it
    throws a TypeError. *)
Theorem execute_returns_iff_answer_ok env (fetch : Fetch) q resp data :
  fetch (search_request env q) = Ok resp →
  json resp = Ok data →
  if Shapes.answer_ok data
  then ∃ out, webSearch_execute env fetch q = Ok out
  else webSearch_execute env fetch q = Throw TypeError.
Proof.
  intros Hf Hj. unfold webSearch_execute. rewrite Hf. cbn [bind].
  rewrite Hj. cbn [bind].
  unfold Shapes.answer_ok, Coercion.optional_get.
  destruct data as [| |b|n|s|l|props]; simpl; eauto.
  destruct (default VUndefined (lookup_prop (lit "results") props))
    as [| |b|n|s|items|ps]; simpl; eauto.
  pose proof (map_to_result_items_ok items) as Hi.
  unfold optional_call. cbn [nullish call_map].
  destruct (forallb Shapes.item_ok items).
  - destruct Hi as [out ->]. simpl. eauto.
  - by rewrite Hi.
Qed.

Lemma execute_returns_iff_answer_ok_witness :
  (∃ out, webSearch_execute demo_env
            (respond 200 (Ok (hits [bare_hit; hit 2]))) (lit "rust") = Ok out) ∧
  webSearch_execute demo_env
    (respond 200 (Ok (hits [hit 2; VObj [(lit "content", VNum 7)]])))
    (lit "rust") = Throw TypeError.
Proof.
  split.
  - exact (execute_returns_iff_answer_ok demo_env
             (respond 200 (Ok (hits [bare_hit; hit 2]))) (lit "rust")
             {| status := 200; json := Ok (hits [bare_hit; hit 2]) |}
             (hits [bare_hit; hit 2]) eq_refl eq_refl).
  - exact (execute_returns_iff_answer_ok demo_env
             (respond 200 (Ok (hits [hit 2; VObj [(lit "content", VNum 7)]])))
             (lit "rust")
             {| status := 200;
                json := Ok (hits [hit 2; VObj [(lit "content", VNum 7)]]) |}
             (hits [hit 2; VObj [(lit "content", VNum 7)]]) eq_refl eq_refl).
Defined.

(** X3.  The results keep the provider's order and fields: the i-th
    result carries the [title] and [url] of the i-th item as they came,
    of whatever kind, and a string [content] of at most 500 code units
    comes back unchanged. *)
Theorem execute_passes_items_through env (fetch : Fetch) q resp data out :
  fetch (search_request env q) = Ok resp →
  json resp = Ok data →
  webSearch_execute env fetch q = Ok out →
  query out = q ∧
  ∀ i item,
    results out !! i = Some item →
    ∃ r, provider_items data !! i = Some r ∧
         get r (lit "title") = Ok (title item) ∧
         get r (lit "url") = Ok (url item) ∧
         ∀ s, get r (lit "content") = Ok (VStr s) → length s ≤ 500 →
              content item = VStr s.
Proof.
  intros Hf Hj H. split.
  - by destruct (execute_inv _ _ _ _ H) as (? & ? & ? & _ & _ & _ & ? & _).
  - intros i item Hi.
    pose proof (execute_provider_items _ _ _ _ _ _ H Hf Hj) as Hm.
    destruct (map_in_order_lookup _ _ _ _ _ Hm Hi) as (r & Hr & Hto).
    destruct (to_result_inv _ _ Hto) as (Ht & Hu & c & Hc & Hcase).
    exists r. split; [done|]. split; [done|]. split; [done|].
    intros s Hs Hlen. rewrite Hs in Hc. inversion Hc; subst c.
    destruct Hcase as [[Hn _]|[(s0 & Heq & ->)|(l & Heq & _)]];
      try discriminate.
    inversion Heq; subst s0. by rewrite take_ge.
Qed.

Lemma execute_passes_items_through_witness :
  ∃ r, provider_items (hits [hit 3; bare_hit]) !! 1%nat = Some r ∧
       get r (lit "title") = Ok (VStr (lit "T")) ∧
       get r (lit "url") = Ok (VStr (lit "https://example.org")).
Proof.
  assert (∃ out, webSearch_execute demo_env
                   (respond 200 (Ok (hits [hit 3; bare_hit]))) (lit "rust")
                 = Ok out ∧
                 results out !! 1%nat
                 = Some {| title := VStr (lit "T");
                           url := VStr (lit "https://example.org");
                           content := VUndefined |}) as (out & Hout & H1).
  { eexists. split; reflexivity. }
  destruct (proj2 (execute_passes_items_through demo_env
                     (respond 200 (Ok (hits [hit 3; bare_hit]))) (lit "rust")
                     {| status := 200; json := Ok (hits [hit 3; bare_hit]) |}
                     (hits [hit 3; bare_hit]) out eq_refl eq_refl Hout)
              1%nat _ H1)
    as (r & Hr & Ht & Hu & _).
  exists r. split; [exact Hr|]. split; [exact Ht|exact Hu].
Defined.

(* ===================================================================== *)
(** ** Scheduled tasks: from [executeTask] to the toast                  *)
(* ===================================================================== *)

(** X4.  [onMessage] never throws, whatever arrives on the socket: text
    that is no JSON, the JSON text [null], and JSON of any other shape
    are all swallowed.  It adds at most one toast, and adds it exactly
    when the parsed message has [type === "scheduled-task"]; the toast
    carries the message's [description] and never times out. *)
Theorem onMessage_toasts_only_scheduled_tasks data :
  ∃ toasts,
    Notifications.onMessage data = Ok toasts ∧
    length toasts ≤ 1 ∧
    (∀ parsed,
       JSON.JSON_parse data = Ok parsed →
       get parsed (lit "type") = Ok (VStr (lit "scheduled-task")) →
       ∃ d, get parsed (lit "description") = Ok d ∧
            toasts = [ {| Notifications.toast_title := "Scheduled task completed";
                          Notifications.toast_description := d;
                          Notifications.toast_timeout := 0 |} ]) ∧
    (toasts ≠ [] →
     ∃ parsed, JSON.JSON_parse data = Ok parsed ∧
               get parsed (lit "type") = Ok (VStr (lit "scheduled-task"))).
Proof.
  unfold Notifications.onMessage.
  destruct (JSON.JSON_parse data) as [parsed|e]; cbn [bind Coercion.try_catch].
  2:{ exists []. split; [done|]. split; [simpl; lia|]. split; [|done].
      intros ? [=]. }
  destruct (get parsed (lit "type")) as [ty|e] eqn:Ety;
    cbn [bind Coercion.try_catch].
  2:{ exists []. split; [done|]. split; [simpl; lia|]. split; [|done].
      intros ? [= <-]. by rewrite Ety. }
  destruct (Coercion.is_string (lit "scheduled-task") ty) eqn:Eis.
  - assert (ty = VStr (lit "scheduled-task")) as ->.
    { destruct ty; simpl in Eis; try discriminate.
      by apply bool_decide_eq_true in Eis as ->. }
    assert (∃ d, get parsed (lit "description") = Ok d) as [d Hd].
    { destruct parsed; simpl in Ety; try discriminate; simpl; eauto. }
    rewrite Hd. cbn [bind Coercion.try_catch].
    eexists. split; [done|]. split; [simpl; lia|]. split.
    + intros ? [= <-] _. eauto.
    + intros _. eauto.
  - cbn [Coercion.try_catch].
    exists []. split; [done|]. split; [simpl; lia|]. split; [|done].
    intros ? [= <-] Hty. rewrite Ety in Hty. inversion Hty; subst ty.
    unfold Coercion.is_string in Eis. by apply bool_decide_eq_false in Eis.
Qed.

Lemma onMessage_toasts_witness :
  Notifications.onMessage (JSON.json_of (JSON_stringify VNull)) = Ok [] ∧
  Notifications.onMessage (JSON.not_json (lit "ping")) = Ok [].
Proof.
  split.
  - destruct (onMessage_toasts_only_scheduled_tasks
                (JSON.json_of (JSON_stringify VNull)))
      as (toasts & H & _ & _ & Hne).
    rewrite H. destruct toasts as [|t ts]; [done|].
    destruct Hne as (parsed & Hp & Hty); [done|].
    inversion Hp; subst parsed. discriminate.
  - reflexivity.
Defined.

(** X5.  What the server broadcasts for a scheduled task is what the
    client shows: [executeTask] logs one line and broadcasts one
    message, and [onMessage] turns that message into one toast with the
    task's description, for every description and clock reading. *)
Theorem scheduled_task_broadcast_reaches_toast now description :
  Scheduled.executeTask now description
  = [ Scheduled.console_log
        (lit "Executing scheduled task: " ++ description)%list;
      Scheduled.broadcast
        (JSON_stringify
           (VObj [ (lit "type", VStr (lit "scheduled-task"));
                   (lit "description", VStr description);
                   (lit "timestamp", VStr now) ])) ] ∧
  ∀ message,
    In (Scheduled.broadcast message) (Scheduled.executeTask now description) →
    Notifications.onMessage (JSON.json_of message)
    = Ok [ {| Notifications.toast_title := "Scheduled task completed";
              Notifications.toast_description := VStr description;
              Notifications.toast_timeout := 0 |} ].
Proof.
  split; [reflexivity|].
  intros message [H|[H|[]]]; [discriminate|].
  inversion H; subst message. reflexivity.
Qed.

Lemma scheduled_task_witness :
  Notifications.onMessage
    (JSON.json_of
       (JSON_stringify
          (VObj [ (lit "type", VStr (lit "scheduled-task"));
                  (lit "description", VStr (lit "weekly digest"));
                  (lit "timestamp", VStr (lit "2026-01-01T00:00:00.000Z")) ])))
  = Ok [ {| Notifications.toast_title := "Scheduled task completed";
            Notifications.toast_description := VStr (lit "weekly digest");
            Notifications.toast_timeout := 0 |} ].
Proof.
  apply (proj2 (scheduled_task_broadcast_reaches_toast
                  (lit "2026-01-01T00:00:00.000Z") (lit "weekly digest"))).
  right. left. reflexivity.
Defined.

(* ===================================================================== *)
(** ** More on the client: what [send] sends, and when                   *)
(* ===================================================================== *)

Local Open Scope list_scope.

Section TrimFacts.
Import Shapes.

Lemma trim_start_spec s :
  ∃ pre, s = pre ++ trim_start s ∧ forallb is_whitespace pre = true ∧
         match trim_start s with
         | c :: _ => visible c = true
         | [] => True
         end.
Proof.
  induction s as [|c s IH]; simpl.
  - by exists [].
  - destruct (is_whitespace c) eqn:E.
    + destruct IH as (pre & Hs & Hpre & Hhd).
      exists (c :: pre). simpl. rewrite E, Hpre. split; [by f_equal|done].
    + exists []. unfold visible. by rewrite E.
Qed.

Lemma trim_start_blank s :
  forallb is_whitespace s = true → trim_start s = [].
Proof.
  induction s as [|c s IH]; simpl; [done|].
  intros [-> H]%andb_true_iff. auto.
Qed.

Lemma trim_end_spec s :
  ∃ post, s = trim_end s ++ post ∧ forallb is_whitespace post = true ∧
          match last (trim_end s) with
          | Some c => visible c = true
          | None => True
          end.
Proof.
  unfold trim_end.
  destruct (trim_start_spec (rev s)) as (pre & Hs & Hpre & Hhd).
  exists (rev pre). split; [|split].
  - rewrite <- rev_app_distr, <- Hs. by rewrite rev_involutive.
  - rewrite forallb_forall in *. intros x Hx. apply Hpre.
    by apply in_rev.
  - destruct (trim_start (rev s)) as [|c t]; [done|].
    simpl. by rewrite last_snoc.
Qed.

Lemma trim_spec s :
  ∃ pre post,
    s = pre ++ trim s ++ post ∧
    forallb is_whitespace pre = true ∧ forallb is_whitespace post = true ∧
    match head (trim s), last (trim s) with
    | Some a, Some b => visible a = true ∧ visible b = true
    | None, None => True
    | _, _ => False
    end.
Proof.
  unfold trim.
  destruct (trim_start_spec s) as (pre & Hs & Hpre & Hhd).
  destruct (trim_end_spec (trim_start s)) as (post & Ht & Hpost & Hlast).
  exists pre, post. split; [by rewrite <- Ht|]. split; [done|]. split; [done|].
  destruct (trim_end (trim_start s)) as [|a t] eqn:E; [done|].
  simpl. destruct (last (a :: t)) as [b|] eqn:El.
  - split; [|done]. rewrite Ht in Hhd. by simpl in Hhd.
  - by apply last_None in El.
Qed.

Lemma trim_blank_iff s :
  trim s = [] ↔ existsb visible s = false.
Proof.
  split.
  - intros H. destruct (trim_spec s) as (pre & post & Hs & Hpre & Hpost & _).
    rewrite H in Hs. simpl in Hs. rewrite Hs.
    rewrite existsb_app. apply orb_false_iff.
    split; apply not_true_iff_false; intros (x & Hx & Hv)%existsb_exists;
      unfold visible in Hv; apply negb_true_iff in Hv;
      rewrite forallb_forall in Hpre, Hpost;
      [rewrite (Hpre x Hx) in Hv | rewrite (Hpost x Hx) in Hv]; discriminate.
  - intros H. unfold trim. rewrite trim_start_blank; [done|].
    apply forallb_forall. intros x Hx.
    destruct (is_whitespace x) eqn:E; [done|].
    assert (existsb visible s = true) as Ht; [|congruence].
    apply existsb_exists. exists x. unfold visible. by rewrite E.
Qed.

End TrimFacts.

(** X6.  [send] sends a message exactly when no answer is streaming and
    the input holds a character that is not whitespace; a blank input
    never sends. *)
Theorem send_sends_iff c :
  snd (Client.send c) ≠ [] ↔
  Client.isStreaming c = false ∧
  existsb Shapes.visible (Client.input c) = true.
Proof.
  unfold Client.send.
  pose proof (trim_blank_iff (Client.input c)) as Hb.
  destruct (trim (Client.input c)) as [|a t] eqn:E; simpl.
  - split; [done|]. intros [_ Hv].
    rewrite (proj1 Hb eq_refl) in Hv. discriminate.
  - destruct (Client.isStreaming c); simpl.
    + split; [done|]. intros [[=] _].
    + split; [|intros _; discriminate]. intros _. split; [done|].
      destruct (existsb Shapes.visible (Client.input c)) eqn:Ev; [done|].
      discriminate (proj2 Hb eq_refl).
Qed.

Lemma send_sends_witness :
  snd (Client.send idle_chat) ≠ [] ∧
  snd (Client.send (Client.setInput (lit "   ") idle_chat)) = [].
Proof.
  split.
  - apply (proj2 (send_sends_iff idle_chat)). split; reflexivity.
  - reflexivity.
Defined.

(** X7.  What [send] sends is the input without the whitespace at its
    two ends: the text starts and ends with a character that is not
    whitespace, the input is that text between two runs of whitespace,
    one message with role user and that one text part goes out, and the
    input is cleared. *)
Theorem send_sends_trimmed_input c c' out :
  Client.send c = (c', out) → out ≠ [] →
  ∃ pre t post a b,
    Client.input c = pre ++ t ++ post ∧
    forallb is_whitespace pre = true ∧ forallb is_whitespace post = true ∧
    head t = Some a ∧ Shapes.visible a = true ∧
    last t = Some b ∧ Shapes.visible b = true ∧
    out = [ Client.sendMessage
              {| Client.out_role := UI.user; Client.out_parts := [UI.UIText t] |} ] ∧
    c' = Client.setInput [] c.
Proof.
  unfold Client.send. intros H Hout.
  destruct (trim_spec (Client.input c)) as (pre & post & Hs & Hpre & Hpost & Hend).
  destruct (falsy (trim (Client.input c)) || Client.isStreaming c) eqn:E;
    inversion H; subst; [done|].
  apply orb_false_iff in E as [Ef _].
  destruct (head (trim (Client.input c))) as [a|] eqn:Ha;
    destruct (last (trim (Client.input c))) as [b|] eqn:Hb; try done.
  - destruct Hend as [Hva Hvb].
    exists pre, (trim (Client.input c)), post, a, b. by repeat split.
  - destruct (trim (Client.input c)); [discriminate Ef|discriminate Ha].
Qed.

Lemma send_sends_trimmed_witness :
  ∃ pre t post,
    Client.input idle_chat = pre ++ t ++ post ∧
    snd (Client.send idle_chat)
    = [ Client.sendMessage
          {| Client.out_role := UI.user; Client.out_parts := [UI.UIText t] |} ] ∧
    t = lit "hello world".
Proof.
  destruct (send_sends_trimmed_input idle_chat
              (fst (Client.send idle_chat))
              (snd (Client.send idle_chat)))
    as (pre & t & post & a & b & Hi & _ & _ & _ & _ & _ & _ & Hout & _).
  - apply surjective_pairing.
  - discriminate.
  - exists pre, t, post. split; [exact Hi|]. split; [exact Hout|].
    by inversion Hout.
Defined.

(** X8.  The Send button and the Enter key do the same in every state:
    both run [send] when the socket is connected and no answer is
    streaming, and nothing otherwise; any other key, and Enter with
    Shift, sends nothing. *)
Theorem send_button_and_enter_agree c :
  Client.act c Client.ClickSend = Client.act c (Client.KeyDownInput "Enter" false) ∧
  Client.act c Client.ClickSend
  = (if Client.connected c && negb (Client.isStreaming c)
     then Client.send c else (c, [])) ∧
  (∀ key shiftKey,
     key ≠ "Enter" ∨ shiftKey = true →
     Client.act c (Client.KeyDownInput key shiftKey) = (c, [])).
Proof.
  assert (Client.act c Client.ClickSend
          = (if Client.connected c && negb (Client.isStreaming c)
             then Client.send c else (c, []))) as Hsend.
  { unfold Client.act, Client.send.
    destruct (Client.isStreaming c); [by rewrite andb_false_r|].
    destruct (Client.connected c), (falsy (trim (Client.input c))); done. }
  split; [|split; [exact Hsend|]].
  - rewrite Hsend. unfold Client.act.
    destruct (Client.connected c), (Client.isStreaming c); done.
  - intros key shiftKey H. unfold Client.act.
    destruct (negb (Client.connected c) || Client.isStreaming c); [done|].
    destruct H as [H| ->].
    + apply String.eqb_neq in H. by rewrite H.
    + by rewrite andb_false_r.
Qed.

Lemma send_button_and_enter_witness :
  Client.act idle_chat (Client.KeyDownInput "Enter" true) = (idle_chat, []) ∧
  Client.act idle_chat (Client.KeyDownInput "a" false) = (idle_chat, []).
Proof.
  split.
  - apply (proj2 (proj2 (send_button_and_enter_agree idle_chat))).
    right. reflexivity.
  - apply (proj2 (proj2 (send_button_and_enter_agree idle_chat))).
    left. discriminate.
Defined.

(** X9.  The click, submit and key-down handlers write no state of
    the component but the input: the connection flag, the suggestions
    and the bubble are as before.  Whatever becomes of the messages and
    the status is the hook's doing, through the [sendMessage],
    [clearHistory] or [stop] that a handler calls; a handler makes at
    most one such call, and the input changes only by being cleared
    together with a [sendMessage]. *)
Theorem act_changes_only_the_input c a :
  let '(c', out) := Client.act c a in
  length out ≤ 1 ∧
  Client.connected c' = Client.connected c ∧
  Client.promptSuggestions c' = Client.promptSuggestions c ∧
  Client.promptBubble c' = Client.promptBubble c ∧
  (Client.input c' = Client.input c
   ∨ (Client.input c' = [] ∧ ∃ m, out = [Client.sendMessage m])).
Proof.
  assert (∀ c' out, Client.send c = (c', out) →
    length out ≤ 1 ∧
    Client.connected c' = Client.connected c ∧
    Client.promptSuggestions c' = Client.promptSuggestions c ∧
    Client.promptBubble c' = Client.promptBubble c ∧
    (Client.input c' = Client.input c
     ∨ (Client.input c' = [] ∧ ∃ m, out = [Client.sendMessage m]))) as Hsend.
  { intros c' out. unfold Client.send.
    destruct (falsy (trim (Client.input c)) || Client.isStreaming c);
      intros [= <- <-]; simpl; repeat split; eauto. }
  destruct (Client.act c a) as [c' out] eqn:E. unfold Client.act in E.
  destruct a; try (by apply Hsend);
    repeat match type of E with
           | context [match ?x with _ => _ end] => destruct x eqn:?
           end;
    try (by apply Hsend);
    inversion E; subst; simpl; repeat split; auto.
Qed.

(** X10.  A suggestion button sends exactly its own suggestion, and only
    one of the first four suggestions can be sent this way, only while
    the conversation is empty and nothing is streaming. *)
Theorem suggestion_sends_its_own_prompt c i m :
  In (Client.sendMessage m) (snd (Client.act c (Client.ClickSuggestion i))) →
  i < 4 ∧ Client.messages c = [] ∧ Client.isStreaming c = false ∧
  ∃ prompt, Client.promptSuggestions c !! i = Some prompt ∧
            m = Client.user_text prompt ∧
            Client.act c (Client.ClickSuggestion i)
            = (c, [Client.sendMessage (Client.user_text prompt)]).
Proof.
  unfold Client.act.
  destruct (Client.messages c); [|intros []].
  destruct (Client.isStreaming c); [intros []|].
  rewrite (slice_from_0 4).
  destruct (take 4 (Client.promptSuggestions c) !! i) as [prompt|] eqn:E;
    [|intros []].
  intros [[= <-]|[]].
  apply lookup_take_Some in E as [E Hi].
  split; [done|]. split; [done|]. split; [done|]. eauto.
Qed.

Lemma suggestion_sends_witness :
  Client.act idle_chat (Client.ClickSuggestion 1)
  = (idle_chat,
     [Client.sendMessage
        (Client.user_text (lit "Research the future of electric vehicles."))]).
Proof.
  destruct (suggestion_sends_its_own_prompt idle_chat 1
              (Client.user_text (lit "Research the future of electric vehicles.")))
    as (_ & _ & _ & prompt & Hp & _ & Hact).
  - left. reflexivity.
  - rewrite Hact. by inversion Hp.
Defined.

Lemma only_the_bubble_sends_witness :
  Client.isStreaming streaming_chat = true ∧
  ∀ m, ¬ In (Client.sendMessage m)
           (snd (Client.act streaming_chat (Client.ClickSuggestion 0))).
Proof.
  split; [reflexivity|].
  apply (only_the_bubble_sends_while_streaming streaming_chat
           (Client.ClickSuggestion 0)); [reflexivity|discriminate].
Defined.

(* ===================================================================== *)
(** ** Tool parts, the theme, and the prompt suggestions                 *)
(* ===================================================================== *)

(** X12.  An approval answer leaves [ToolPartView] only for a tool part
    in state approval-requested that has an approval with a truthy id:
    the answer carries that id, Approve says true and Reject says false,
    and it is the only answer of the click.  A part with no id, in any
    other state, or with its output available answers nothing. *)
Theorem approval_answer_only_when_requested part b r :
  In r (ToolView.click (ToolView.ToolPartView part) b) ↔
  ToolView.is_tool part = true ∧
  ToolView.state part = "approval-requested" ∧
  ∃ a, ToolView.approval part = Some a ∧
       Coercion.truthy (Coercion.optional_get a (lit "id")) = true ∧
       r = {| ToolView.response_id := Coercion.optional_get a (lit "id");
              ToolView.response_approved :=
                match b with
                | ToolView.Approve => true
                | ToolView.Reject => false
                end |}.
Proof.
  unfold ToolView.ToolPartView, ToolView.has_approval, ToolView.approval_value.
  split.
  - destruct (ToolView.is_tool part); simpl; [|intros []].
    destruct (String.eqb (ToolView.state part) "output-available") eqn:E1;
      simpl; [intros []|].
    destruct (ToolView.approval part) as [a|]; simpl.
    + destruct (String.eqb (ToolView.state part) "approval-requested") eqn:E2;
        simpl.
      * destruct (Coercion.truthy (Coercion.optional_get a (lit "id"))) eqn:Et;
          [|intros []].
        intros [<-|[]]. apply String.eqb_eq in E2. eauto 10.
      * repeat match goal with
               | |- context [if ?x then _ else _] => destruct x; simpl
               end; intros [].
    + repeat match goal with
             | |- context [if ?x then _ else _] => destruct x; simpl
             end; intros [].
  - intros (-> & Hs & a & -> & Ht & ->). rewrite Hs. simpl.
    rewrite Ht. by left.
Qed.

Lemma approval_answer_witness :
  In {| ToolView.response_id := VStr (lit "appr-1");
        ToolView.response_approved := false |}
     (ToolView.click (ToolView.ToolPartView pending_approval) ToolView.Reject).
Proof.
  apply (proj2 (approval_answer_only_when_requested pending_approval
                  ToolView.Reject _)).
  split; [reflexivity|]. split; [reflexivity|].
  exists (VObj [(lit "id", VStr (lit "appr-1"))]).
  split; [reflexivity|]. split; reflexivity.
Defined.

(** X13.  After any number of clicks on the theme button, at least one,
    the three places the theme is written to agree with the component:
    the [data-mode] attribute, [colorScheme] and the stored [theme] all
    name the mode of the current state, whatever they held before; the
    state is the initial one flipped once per click; and a component
    mounted afresh reads that state back from the attribute. *)
Theorem theme_stores_agree_after_toggles n dark d :
  1 ≤ n →
  let '(dark', d') := Theme.toggles n dark d in
  dark' = (if Nat.even n then dark else negb dark) ∧
  Theme.data_mode d' = Some (Theme.mode_of dark') ∧
  Theme.colorScheme d' = Theme.mode_of dark' ∧
  Theme.stored_theme d' = Some (Theme.mode_of dark') ∧
  Theme.initial_dark d' = dark'.
Proof.
  intros Hn. destruct n as [|n]; [lia|]. clear Hn.
  revert dark d. induction n as [|n IH]; intros dark d.
  - simpl. by destruct dark.
  - change (Theme.toggles (S (S n)) dark d)
      with (Theme.toggles (S n) (negb dark)
              (snd (Theme.toggle dark d))).
    specialize (IH (negb dark) (snd (Theme.toggle dark d))).
    destruct (Theme.toggles (S n) (negb dark) (snd (Theme.toggle dark d)))
      as [dark' d'].
    destruct IH as (Hd & H). split; [|exact H].
    rewrite Hd. change (Nat.even (S (S n))) with (Nat.even n).
    rewrite Nat.even_succ, <- Nat.negb_even.
    destruct (Nat.even n), dark; done.
Qed.

Lemma theme_stores_agree_witness :
  let '(dark', d') := Theme.toggles 3 false plain_document in
  dark' = true ∧ Theme.data_mode d' = Some (lit "dark") ∧
  Theme.initial_dark d' = true.
Proof.
  pose proof (theme_stores_agree_after_toggles 3 false plain_document
                ltac:(lia)) as H.
  destruct (Theme.toggles 3 false plain_document) as [dark' d'].
  destruct H as (-> & Hm & _ & _ & Hi). simpl in *. done.
Defined.

Section SuggestionFacts.
Import Client Suggestions.

Lemma act_keeps_suggestions c a :
  promptSuggestions (fst (act c a)) = promptSuggestions c.
Proof.
  unfold act, send.
  destruct a; simpl;
    repeat match goal with
           | |- context [match ?x with _ => _ end] => destruct x; simpl
           end; done.
Qed.

Lemma reacts_cons c h hs :
  fst (reacts c (h :: hs)) = fst (reacts (fst (react c h)) hs).
Proof.
  simpl. destruct (react c h) as [c1 out1]. simpl.
  by destruct (reacts c1 hs).
Qed.

Lemma react_suggestions c h :
  promptSuggestions (fst (react c h)) = promptSuggestions c ∨
  (promptSuggestions (fst (react c h)) ≠ [] ∧
   received [h] (promptSuggestions (fst (react c h)))).
Proof.
  destruct h; simpl; auto.
  - left. apply act_keeps_suggestions.
  - unfold fetchSuggestions.
    destruct answer as [response|e]; auto.
    destruct (response_ok response) eqn:Eok; simpl; auto.
    destruct (response_json response) as [body|e] eqn:Ej; auto.
    destruct (suggestions body) as [[|x rest]|] eqn:Es; auto.
    right. simpl. split; [done|].
    exists response, body. split; [by left|done].
  - left. by destruct (showBubble now draw c) eqn:E;
      [unfold showBubble in E;
       destruct (_ !! draw); inversion E|].
Qed.

Lemma reacts_suggestions hs c :
  promptSuggestions (fst (reacts c hs)) = promptSuggestions c ∨
  (promptSuggestions (fst (reacts c hs)) ≠ [] ∧
   received hs (promptSuggestions (fst (reacts c hs)))).
Proof.
  revert c. induction hs as [|h hs IH]; intros c; [by left|].
  rewrite reacts_cons.
  destruct (IH (fst (react c h))) as [Heq|[Hne (r & b & Hin & Hr)]].
  - rewrite Heq.
    destruct (react_suggestions c h) as [?|[Hne (r & b & Hin & Hr)]]; auto.
    right. split; [done|]. exists r, b. split; [|done].
    destruct Hin as [<-|[]]. by left.
  - right. split; [done|]. exists r, b. split; [by right|done].
Qed.

End SuggestionFacts.

(** X14.  The prompts in use are never empty: from the first render on,
    whatever the user does and however the suggestion request, the
    socket and the chat settle, [promptSuggestions] is the default
    prompts or the list of a successful, non-empty answer.  So the
    fallback in [showBubble] is never taken: the bubble shows the drawn
    entry of the prompts in use. *)
Theorem prompt_suggestions_never_empty hs :
  let c := fst (Suggestions.reacts Suggestions.initial_chat hs) in
  Client.promptSuggestions c ≠ [] ∧
  (Client.promptSuggestions c = Suggestions.defaultPrompts
   ∨ Suggestions.received hs (Client.promptSuggestions c)) ∧
  ∀ now draw,
    Suggestions.showBubble now draw c
    = match Client.promptSuggestions c !! draw with
      | Some text =>
          Some (Suggestions.setPromptBubble
                  (Some {| Client.bubble_id := now; Client.bubble_text := text |}) c)
      | None => None
      end.
Proof.
  cbv zeta.
  set (c := fst (Suggestions.reacts Suggestions.initial_chat hs)).
  assert (Client.promptSuggestions c ≠ [] ∧
          (Client.promptSuggestions c = Suggestions.defaultPrompts
           ∨ Suggestions.received hs (Client.promptSuggestions c))) as [Hne Hfrom].
  { destruct (reacts_suggestions hs Suggestions.initial_chat) as [Heq|[Hne Hr]].
    - fold c in Heq. rewrite Heq. split; [done|by left].
    - fold c in Hne, Hr. split; [done|by right]. }
  split; [done|]. split; [done|].
  intros now draw. unfold Suggestions.showBubble.
  by destruct (Client.promptSuggestions c).
Qed.

(** X15.  A missing API key does not stop the search: the template
    literal prints the absent key as the text undefined, the request
    goes out with [Authorization: Bearer undefined], and [execute]
    returns whatever results the provider still sends. *)
Theorem missing_key_sends_bearer_undefined env (fetch : Fetch) q :
  TAVILY_API_KEY env = None →
  In ("Authorization"%string, lit "Bearer undefined")
     (req_headers (search_request env q)) ∧
  ∀ st items,
    fetch (search_request env q)
    = Ok {| status := st; json := Ok (hits (shaped_item <$> items)) |} →
    webSearch_execute env fetch q
    = Ok {| query := q; results := shaped_result <$> items |}.
Proof.
  intros Hkey. split.
  - unfold search_request, bearer. rewrite Hkey. simpl. right. by left.
  - intros st items Hf.
    pose proof (map_in_order_all_ok to_result
                  (fun v => match v with
                            | VObj [(_, VStr t); (_, VStr u); (_, VStr c)] =>
                                shaped_result (t, u, c)
                            | _ => shaped_result ([], [], [])
                            end) (shaped_item <$> items)) as Hm.
    unfold webSearch_execute. rewrite Hf. cbn [bind json].
    change (get (hits (shaped_item <$> items)) (lit "results"))
      with (Ok (A:=value) (VArr (shaped_item <$> items))).
    cbn [bind optional_call nullish call_map]. rewrite Hm.
    + cbn [bind nullish_coalesce]. do 2 f_equal.
      rewrite <- list_fmap_compose. apply list_fmap_ext.
      by intros i [[t u] c] _.
    + intros v Hv. apply list_elem_of_fmap in Hv as ([[t u] c] & -> & _).
      apply (to_result_shaped (t, u, c)).
Qed.

Lemma missing_key_witness :
  In ("Authorization"%string, lit "Bearer undefined")
     (req_headers (search_request {| TAVILY_API_KEY := None |} (lit "rust"))).
Proof.
  exact (proj1 (missing_key_sends_bearer_undefined
                  {| TAVILY_API_KEY := None |} unreachable (lit "rust") eq_refl)).
Defined.
